(** * AsmAnalysis: loop density remarks and fetch-group partitioning

    A shallow embedding of [llvm/lib/CodeGen/AsmAnalysis.cpp]: the recursive
    loop reporter [reportLoop], the pass entry point [runOnMachineFunction]
    and the fetch-group walk that follows the entry point's first [return].

    Conventions.
    - [unsigned] variables are integers in [Z]; every addition the source
      performs on them is followed by [wrap32].
    - Pointers to basic blocks inside a function are positions in the
      function's block list.
    - The remark emitter and the [LLVM_DEBUG] stream are two append-only
      lists threaded through the code as an explicit state. *)

From stdpp Require Import base numbers option list gmap strings.

Local Open Scope Z_scope.

(** ** Machine integers *)

Definition wrap32 (z : Z) : Z := z mod 2 ^ 32.

(** ** Instructions, blocks, loops, functions *)

Inductive DebugLoc : Type :=
  DILocation (Line Col : nat).

Record MachineInstr : Type := mkMI {
  Opcode : nat;
  isDebugInstr : bool;
  isPseudoProbe : bool;
  getDebugLoc : option DebugLoc   (* [None] is the empty DebugLoc *)
}.

Record MachineBasicBlock : Type := mkMBB {
  Insts : list MachineInstr;
  FirstTerminator : nat;          (* position where the terminators start *)
  Predecessors : list nat;
  Successors : list nat
}.

(** The terminators of a block are the instructions from its first
    terminator to its end. *)
Definition terminators (B : MachineBasicBlock) : list MachineInstr :=
  drop (FirstTerminator B) (Insts B).

(** Modelled from the spec: [MachineBasicBlock::size] is declared in
    MachineBasicBlock.h, which is not part of the sources; it is the block's
    instruction count. *)
#[global] Instance MachineBasicBlock_size : Size MachineBasicBlock :=
  λ B, length (Insts B).

(** Modelled from the spec: [MachineBasicBlock::pred_size], declared in the
    same header, is the number of predecessors of the block. *)
Definition pred_size (B : MachineBasicBlock) : nat := length (Predecessors B).

(** Modelled from the spec: [MachineBasicBlock::succ_size], declared in the
    same header, is the number of successors of the block. *)
Definition succ_size (B : MachineBasicBlock) : nat := length (Successors B).

#[local] Unset Elimination Schemes.
Inductive MachineLoop : Type :=
  mkLoop (Header : MachineBasicBlock)
         (LatchBlocks : list MachineBasicBlock)
         (MemberBlocks : list MachineBasicBlock)
         (Children : list MachineLoop).
#[local] Set Elimination Schemes.

Definition getHeader (L : MachineLoop) : MachineBasicBlock :=
  match L with mkLoop H _ _ _ => H end.
Definition getLatches (L : MachineLoop) : list MachineBasicBlock :=
  match L with mkLoop _ Ls _ _ => Ls end.
Definition getBlocks (L : MachineLoop) : list MachineBasicBlock :=
  match L with mkLoop _ _ Bs _ => Bs end.
Definition getSubLoops (L : MachineLoop) : list MachineLoop :=
  match L with mkLoop _ _ _ Cs => Cs end.

(** Modelled from the spec: [MachineLoop::getNumBlocks] is declared outside
    the sources; it is the total member block count of the loop. *)
Definition getNumBlocks (L : MachineLoop) : Z :=
  Z.of_nat (length (getBlocks L)).

(** Modelled from the spec: [MachineLoop::getLoopLatch] is declared outside
    the sources; for a loop that has one or more latch blocks it yields the
    first of them, and nothing for a loop without a latch. *)
Definition getLoopLatch (L : MachineLoop) : option MachineBasicBlock :=
  head (getLatches L).

Record MachineFunction : Type := mkMF {
  getName : string;
  getSubprogram : option DebugLoc;
  MFBlocks : list MachineBasicBlock;
  MLI : list MachineLoop          (* top-level loops, in enumeration order *)
}.

(** ** Remarks and the debug stream *)

Inductive Argument : Type :=
  | Str (s : string)
  | NV (Key : string) (Val : Z)
  | NVRatio (Key : string) (Num Den : Z).  (* a quotient of two counters *)

Record Remark : Type := mkRemark {
  PassName : string;
  RemarkName : string;
  Loc : option DebugLoc;
  Block : option MachineBasicBlock;
  Args : list Argument
}.

Inductive DbgLine : Type :=
  | DbgFunction (Name : string)
  | DbgLoop (L : MachineLoop) (Nest : Z)
  | DbgInst (MI : MachineInstr)
  | DbgStartFG
  | DbgBlock (B : nat)
  | DbgSize (Size : Z)
  | DbgAverage (Sizes NumFGs : Z).

Record Streams : Type := mkStreams {
  dbgs : list DbgLine;
  ORE : list Remark
}.

Definition noOutput : Streams := {| dbgs := []; ORE := [] |}.

Definition dbg (d : DbgLine) (Out : Streams) : Streams :=
  {| dbgs := dbgs Out ++ [d]; ORE := ORE Out |}.

Definition emit (R : Remark) (Out : Streams) : Streams :=
  {| dbgs := dbgs Out; ORE := ORE Out ++ [R] |}.

(** The value of the first argument [NV Key _] of a remark. *)
Fixpoint lookupNV (Key : string) (As : list Argument) : option Z :=
  match As with
  | [] => None
  | NV K V :: As' => if String.eqb K Key then Some V else lookupNV Key As'
  | _ :: As' => lookupNV Key As'
  end.

Definition getNV (Key : string) (R : Remark) : option Z := lookupNV Key (Args R).

Fixpoint keysOf (As : list Argument) : list string :=
  match As with
  | [] => []
  | Str _ :: As' => keysOf As'
  | NV K _ :: As' => K :: keysOf As'
  | NVRatio K _ _ :: As' => K :: keysOf As'
  end.

(** ** reportLoop *)

Definition DEBUG_TYPE : string := "asma".
Definition MW : Z := 10.

(** One iteration of the loop over the header's instructions. *)
Definition scanHeaderStep (acc : option MachineInstr * Z * Streams)
    (MI : MachineInstr) : option MachineInstr * Z * Streams :=
  let '(AnchorMI, numInsts, Out) := acc in
  if isDebugInstr MI || isPseudoProbe MI then acc
  else
    let Out := dbg (DbgInst MI) Out in
    let AnchorMI := match AnchorMI with None => Some MI | Some _ => AnchorMI end in
    (AnchorMI, wrap32 (numInsts + 1), Out).

Definition hasDebugLoc (MI : MachineInstr) : bool :=
  match getDebugLoc MI with Some _ => true | None => false end.

(** The loop over the latch's terminators, left at the first hit. *)
Fixpoint scanTerminators (Ts : list MachineInstr) (AnchorMI : option MachineInstr)
    : option MachineInstr :=
  match Ts with
  | [] => AnchorMI
  | MI :: Ts' => if hasDebugLoc MI then Some MI else scanTerminators Ts' AnchorMI
  end.

(** [(numInsts % MW) ? MW - (numInsts % MW) : 0] *)
Definition bubblesOf (numInsts : Z) : Z :=
  if negb (numInsts mod MW =? 0) then MW - numInsts mod MW else 0.

Definition loopRemark (L : MachineLoop) (AnchorMI : MachineInstr)
    (numBlocks numInsts numSubLoops : Z) : Remark :=
  {| PassName := DEBUG_TYPE;
     RemarkName := "LoopInfo2";
     Loc := getDebugLoc AnchorMI;
     Block := Some (getHeader L);
     Args := [ Str "asm-loop with blocks="; NV "NumBlocks" numBlocks;
               Str " insts="; NV "NumInsts" numInsts;
               Str " bubbles="; NV "Bubbles" (bubblesOf numInsts);
               Str " subLoops="; NV "NumSubLoops" numSubLoops ] |}.

(** The loop over the header's instructions. *)
Definition headerScan (Header : MachineBasicBlock) (Out : Streams)
    : option MachineInstr * Z * Streams :=
  fold_left scanHeaderStep (Insts Header) (None, 0, Out).

(** The [if] over the loop's latch. *)
Definition latchScan (L : MachineLoop) (AnchorMI : option MachineInstr)
    : option MachineInstr :=
  match getLoopLatch L with
  | Some Latch => scanTerminators (terminators Latch) AnchorMI
  | None => AnchorMI
  end.

(** Everything [reportLoop] does after the loop over the sub-loops. *)
Definition reportOwn (L : MachineLoop) (numSubLoops : Z) (Out : Streams) : Streams :=
  let '(AnchorMI, numInsts, Out) := headerScan (getHeader L) Out in
  let AnchorMI := latchScan L AnchorMI in
  match AnchorMI with
  | Some A =>
      let numBlocks := getNumBlocks L in
      emit (loopRemark L A numBlocks numInsts numSubLoops) Out
  | None => Out
  end.

Fixpoint reportLoop (L : MachineLoop) (NestLevel : Z) (Out : Streams) {struct L}
    : Streams :=
  let Out := dbg (DbgLoop L NestLevel) Out in
  let '(numSubLoops, Out) :=
    match L with
    | mkLoop _ _ _ SubLoops =>
        (fix subloops (Ls : list MachineLoop) (numSubLoops : Z) (Out : Streams)
             {struct Ls} : Z * Streams :=
           match Ls with
           | [] => (numSubLoops, Out)
           | SubL :: Ls' =>
               let numSubLoops := wrap32 (numSubLoops + 1) in
               subloops Ls' numSubLoops (reportLoop SubL (wrap32 (NestLevel + 1)) Out)
           end) SubLoops 0 Out
    end in
  reportOwn L numSubLoops Out.

(** The loop over the sub-loops, as a function of its own. *)
Fixpoint reportSubLoops (Ls : list MachineLoop) (NestLevel : Z)
    (numSubLoops : Z) (Out : Streams) : Z * Streams :=
  match Ls with
  | [] => (numSubLoops, Out)
  | SubL :: Ls' =>
      reportSubLoops Ls' NestLevel (wrap32 (numSubLoops + 1))
        (reportLoop SubL (wrap32 (NestLevel + 1)) Out)
  end.

(** ** The entry point and the fetch-group walk *)

(** What a run of the code after the first [return] of the entry point can
    come to: a result, a loop that has not ended within the given number of
    iterations, or a dereference the C++ standard leaves undefined (a block
    pointer that names no block, [std::prev] of the end of an empty list). *)
Inductive outcome (A : Type) : Type :=
  | Done (a : A)
  | OutOfFuel
  | Undefined.
Arguments Done {A} a.
Arguments OutOfFuel {A}.
Arguments Undefined {A}.

#[global] Instance outcome_ret : MRet outcome := λ A a, Done a.
#[global] Instance outcome_bind : MBind outcome := λ A B k m,
  match m with
  | Done a => k a
  | OutOfFuel => OutOfFuel
  | Undefined => Undefined
  end.

(** [*std::prev(B->succ_end())] *)
Definition lastSucc (B : MachineBasicBlock) : outcome nat :=
  match last (Successors B) with
  | Some N => Done N
  | None => Undefined
  end.

Definition deref (Blocks : list MachineBasicBlock) (P : nat)
    : outcome MachineBasicBlock :=
  match Blocks !! P with
  | Some B => Done B
  | None => Undefined
  end.

(** The [while (true)] loop: [fuel] bounds the number of iterations. *)
Fixpoint chainWalk (fuel : nat) (Blocks : list MachineBasicBlock) (Curr : nat)
    (Size : Z) (Seen : gset nat) (Out : Streams) : outcome (Z * Streams) :=
  match fuel with
  | O => OutOfFuel
  | S fuel' =>
      if decide (Curr ∈ Seen) then Done (Size, Out)
      else
        let Seen := {[Curr]} ∪ Seen in
        B ← deref Blocks Curr;
        let Size := wrap32 (Size + Z.of_nat (size B)) in
        let Out := dbg (DbgBlock Curr) Out in
        if Nat.eqb (succ_size B) 0 then Done (Size, Out)
        else
          Next ← lastSucc B;
          chainWalk fuel' Blocks Next Size Seen Out
  end.

(** The test that guards the [continue] of the loop over the blocks. *)
Definition singlePredFallthrough (Blocks : list MachineBasicBlock) (Idx : nat)
    (MBB : MachineBasicBlock) : outcome bool :=
  if Nat.eqb (pred_size MBB) 1 then
    match Predecessors MBB with
    | P :: _ =>
        PB ← deref Blocks P;
        Last ← lastSucc PB;
        Done (Nat.eqb Last Idx)
    | [] => Undefined
    end
  else Done false.

(** Modelled from the spec: [divideCeil] is declared in MathExtras.h, which
    is not part of the sources; it is the ceiling of the quotient. *)
Definition divideCeil (Numerator Denominator : Z) : Z :=
  (Numerator + Denominator - 1) / Denominator.

(** The body of the loop over the blocks, for the block at position [Idx]. *)
Definition fetchGroupStep (fuel : nat) (Blocks : list MachineBasicBlock)
    (Idx : nat) (MBB : MachineBasicBlock) (acc : Z * Z * Streams)
    : outcome (Z * Z * Streams) :=
  let '(NumFGs, Sizes, Out) := acc in
  skip ← singlePredFallthrough Blocks Idx MBB;
  if (skip : bool) then Done acc
  else
    let Out := dbg DbgStartFG Out in
    '(Size, Out) ← chainWalk fuel Blocks Idx 0 ∅ Out;
    let Out := dbg (DbgSize Size) Out in
    let NumFGs := wrap32 (NumFGs + divideCeil Size 16) in
    let Sizes := wrap32 (Sizes + Size) in
    Done (NumFGs, Sizes, Out).

Fixpoint fetchGroupLoop (fuel : nat) (Blocks : list MachineBasicBlock)
    (Idx : nat) (Rest : list MachineBasicBlock) (acc : Z * Z * Streams)
    : outcome (Z * Z * Streams) :=
  match Rest with
  | [] => Done acc
  | MBB :: Rest' =>
      acc' ← fetchGroupStep fuel Blocks Idx MBB acc;
      fetchGroupLoop fuel Blocks (S Idx) Rest' acc'
  end.

(** The statements of [runOnMachineFunction] that follow its first
    [return false;]. [AvgSize] is kept as the pair of counters whose
    quotient it is. *)
Definition fetchGroups (fuel : nat) (MF : MachineFunction) (Out : Streams)
    : outcome (bool * Streams) :=
  '(NumFGs, Sizes, Out) ←
     fetchGroupLoop fuel (MFBlocks MF) 0 (MFBlocks MF) (0, 0, Out);
  let Out := dbg (DbgAverage Sizes NumFGs) Out in
  front ← deref (MFBlocks MF) 0;
  let Out :=
    emit {| PassName := DEBUG_TYPE; RemarkName := "AsmA";
            Loc := getSubprogram MF; Block := Some front;
            Args := [ NVRatio "AverageSize" Sizes NumFGs ] |} Out in
  Done (false, Out).

(** The entry point: the loop over the top-level loops, then
    [return false;]. Control never reaches [fetchGroups]. *)
Definition runOnMachineFunction (MF : MachineFunction) (Out : Streams)
    : bool * Streams :=
  let Out := dbg (DbgFunction (getName MF)) Out in
  let Out := fold_left (λ Out L, reportLoop L 0 Out) (MLI MF) Out in
  (false, Out).

(** ** What the loops compute, in closed form *)

Definition qualifying (MI : MachineInstr) : bool :=
  negb (isDebugInstr MI || isPseudoProbe MI).

(** The header's instructions that are neither debug instructions nor
    pseudo probes, in order. *)
Definition headerInsts (Header : MachineBasicBlock) : list MachineInstr :=
  List.filter qualifying (Insts Header).

Definition anchorOf (L : MachineLoop) : option MachineInstr :=
  latchScan L (head (headerInsts (getHeader L))).

Definition numInstsOf (L : MachineLoop) : Z :=
  wrap32 (Z.of_nat (length (headerInsts (getHeader L)))).

Definition numSubLoopsOf (L : MachineLoop) : Z :=
  wrap32 (Z.of_nat (length (getSubLoops L))).

(** The remark of a loop itself: none when no anchor was found. *)
Definition ownRemarks (L : MachineLoop) (numSubLoops : Z) : list Remark :=
  match anchorOf L with
  | Some A => [loopRemark L A (getNumBlocks L) (numInstsOf L) numSubLoops]
  | None => []
  end.

Fixpoint loopRemarks (L : MachineLoop) : list Remark :=
  match L with
  | mkLoop _ _ _ Cs =>
      flat_map loopRemarks Cs ++ ownRemarks L (wrap32 (Z.of_nat (length Cs)))
  end.

Fixpoint loopDbg (L : MachineLoop) (NestLevel : Z) : list DbgLine :=
  match L with
  | mkLoop H _ _ Cs =>
      DbgLoop L NestLevel
        :: flat_map (λ C, loopDbg C (wrap32 (NestLevel + 1))) Cs
        ++ map DbgInst (headerInsts H)
  end.

(** Number of loops nested in [L], at any depth. *)
Fixpoint numDescendants (L : MachineLoop) : nat :=
  match L with
  | mkLoop _ _ _ Cs => list_sum (map (λ C, S (numDescendants C)) Cs)
  end.

(** Number of loops among [L] and its descendants that have an anchor. *)
Fixpoint numAnchored (L : MachineLoop) : nat :=
  match L with
  | mkLoop _ _ _ Cs =>
      (list_sum (map numAnchored Cs)
       + match anchorOf L with Some _ => 1 | None => 0 end)%nat
  end.

(** Every loop among [L] and its descendants has an anchor. *)
Fixpoint allAnchored (L : MachineLoop) : bool :=
  match L with
  | mkLoop _ _ _ Cs =>
      forallb allAnchored Cs
      && match anchorOf L with Some _ => true | None => false end
  end.

(** [nestedAt L d L']: [L'] is [L] itself ([d = 0]) or a loop nested in [L],
    [d] levels down. *)
Inductive nestedAt : MachineLoop → nat → MachineLoop → Prop :=
  | nested_here L : nestedAt L 0 L
  | nested_below L C d L' :
      C ∈ getSubLoops L → nestedAt C d L' → nestedAt L (S d) L'.

(** What is appended to the two streams. *)
Definition moreOutput (Out : Streams) (ds : list DbgLine) (Rs : list Remark)
    : Streams :=
  {| dbgs := dbgs Out ++ ds; ORE := ORE Out ++ Rs |}.


(** Every successor of every block is a block of the function. *)
Definition wfCFG (Blocks : list MachineBasicBlock) : Prop :=
  Forall (λ B, Forall (λ N, (N < length Blocks)%nat) (Successors B)) Blocks.


(** ** Example inputs *)

Definition realMI : MachineInstr := mkMI 1 false false None.
Definition locMI (Line : nat) : MachineInstr :=
  mkMI 2 false false (Some (DILocation Line 1)).
Definition dbgMI : MachineInstr := mkMI 0 true false (Some (DILocation 9 9)).
Definition probeMI : MachineInstr := mkMI 0 false true None.

(** A block of [n] plain instructions without edges. *)
Definition plainBlock (n : nat) : MachineBasicBlock :=
  mkMBB (repeat realMI n) n [] [].

(** A latch whose second terminator is the first one with a location. *)
Definition locLatch : MachineBasicBlock :=
  mkMBB [realMI; realMI; locMI 7; locMI 8] 1 [] [].

(** A latch whose only terminator has no location. *)
Definition bareLatch : MachineBasicBlock := mkMBB [realMI; realMI] 1 [] [].

(** A header that holds a debug instruction and a pseudo probe only. *)
Definition metaHeader : MachineBasicBlock := mkMBB [dbgMI; probeMI] 2 [] [].

(** A header whose first real instruction follows a debug instruction. *)
Definition mixedHeader : MachineBasicBlock :=
  mkMBB [dbgMI; locMI 3; probeMI; realMI] 4 [] [].

Definition bareLoop : MachineLoop :=
  mkLoop metaHeader [bareLatch] [metaHeader; bareLatch] [].

Definition latchLoop : MachineLoop :=
  mkLoop mixedHeader [locLatch] [mixedHeader; locLatch] [].

Definition metaLatchLoop : MachineLoop :=
  mkLoop metaHeader [locLatch] [metaHeader; locLatch] [].

Definition innerLoop : MachineLoop :=
  mkLoop (plainBlock 20) [] [plainBlock 20] [].

Definition outerLoop : MachineLoop :=
  mkLoop (plainBlock 5) [] [plainBlock 5; plainBlock 20] [innerLoop].

Definition twelveLoop : MachineLoop :=
  mkLoop (plainBlock 12) [bareLatch] [plainBlock 12; bareLatch] [].

(** A block of [n] plain instructions with the given edges. *)
Definition edgeBlock (n : nat) (Preds Succs : list nat) : MachineBasicBlock :=
  mkMBB (repeat realMI n) n Preds Succs.

(** Four blocks in a row, ten instructions each. *)
Definition chain4 : list MachineBasicBlock :=
  [ edgeBlock 10 [] [1%nat]; edgeBlock 10 [0%nat] [2%nat];
    edgeBlock 10 [1%nat] [3%nat]; edgeBlock 10 [2%nat] [] ].

(** An entry block followed by a block that branches to the exit or back to
    itself, the back edge listed last. *)
Definition selfLoopCFG : list MachineBasicBlock :=
  [ edgeBlock 2 [] [1%nat]; edgeBlock 3 [0%nat; 1%nat] [2%nat; 1%nat];
    edgeBlock 1 [1%nat] [] ].


(** ** Notions for the further properties *)

Definition isDbgLoop (d : DbgLine) : bool :=
  match d with DbgLoop _ _ => true | _ => false end.

(** Number of loops of a forest, at any depth. *)
Definition numLoops (Ls : list MachineLoop) : nat :=
  list_sum (map (λ L, S (numDescendants L)) Ls).

(** The instruction counts of the blocks at the given positions, added up. *)
Fixpoint sizeSum (Blocks : list MachineBasicBlock) (Vis : list nat) : Z :=
  match Vis with
  | [] => 0
  | v :: Vis' =>
      match Blocks !! v with
      | Some B => Z.of_nat (size B)
      | None => 0
      end + sizeSum Blocks Vis'
  end.

(** Each position of [Vis] but the last is followed by the last-listed
    successor of its block. *)
Fixpoint lastLinked (Blocks : list MachineBasicBlock) (Vis : list nat) : Prop :=
  match Vis with
  | [] => True
  | v :: Vis' =>
      match Vis' with
      | [] => True
      | w :: _ => ∃ B, Blocks !! v = Some B ∧ last (Successors B) = Some w
      end ∧ lastLinked Blocks Vis'
  end.

(** The predecessor lists agree with the successor lists: a predecessor of a
    block is a block of the function and has that block among its
    successors. *)
Definition edgesConsistent (Blocks : list MachineBasicBlock) : Prop :=
  ∀ i B P, Blocks !! i = Some B → P ∈ Predecessors B →
    ∃ PB, Blocks !! P = Some PB ∧ i ∈ Successors PB.

(** Every block is the last-listed successor of its only predecessor. *)
Definition allFallthrough (Blocks : list MachineBasicBlock) : Prop :=
  ∀ i B, Blocks !! i = Some B →
    ∃ P PB, Predecessors B = [P] ∧ Blocks !! P = Some PB
            ∧ last (Successors PB) = Some i.

(** Two blocks that jump to each other. *)
Definition ringCFG : list MachineBasicBlock :=
  [ edgeBlock 4 [1%nat] [1%nat]; edgeBlock 6 [0%nat] [0%nat] ].

(** An if-then: the entry branches to the join block or falls through to the
    then-block, which falls through to the join block. *)
Definition ifThenCFG : list MachineBasicBlock :=
  [ edgeBlock 3 [] [2%nat; 1%nat]; edgeBlock 5 [0%nat] [2%nat];
    edgeBlock 7 [0%nat; 1%nat] [] ].

(** A function with [outerLoop] as its only top-level loop. *)
Definition nestMF : MachineFunction :=
  mkMF "nest" None [plainBlock 5; plainBlock 20] [outerLoop].

(** A function without loops. *)
Definition flatMF : MachineFunction :=
  mkMF "flat" None [plainBlock 5] [].

(** A function that is one block without instructions. *)
Definition emptyBlockMF : MachineFunction :=
  mkMF "empty" None [edgeBlock 0 [] []] [].

(** With every block that has a line among [ds], the block its last-listed
    successor names has one too. *)
Definition walkedClosed (Blocks : list MachineBasicBlock) (ds : list DbgLine)
    : Prop :=
  ∀ P PB N, DbgBlock P ∈ ds → Blocks !! P = Some PB →
    last (Successors PB) = Some N → DbgBlock N ∈ ds.

(** The instruction count of a function: those of its blocks, added up. *)
Definition totalSize (Blocks : list MachineBasicBlock) : Z :=
  foldr (λ B acc, Z.of_nat (size B) + acc) 0 Blocks.

(** * Properties *)

(** Membership of a given block in a given set of seen blocks. *)
Ltac seen_solver :=
  first [ reflexivity
        | assumption
        | apply (bool_decide_unpack _); vm_compute; exact I ].


(** ** Unfolding [reportLoop] *)

Lemma reportLoop_eq (L : MachineLoop) (NestLevel : Z) (Out : Streams) :
  reportLoop L NestLevel Out =
  let '(numSubLoops, Out') :=
    reportSubLoops (getSubLoops L) NestLevel 0 (dbg (DbgLoop L NestLevel) Out) in
  reportOwn L numSubLoops Out'.
Proof.
  destruct L as [H La Bs Cs]. cbn [reportLoop getSubLoops].
  generalize (dbg (DbgLoop (mkLoop H La Bs Cs) NestLevel) Out).
  generalize 0 at 1 2.
  induction Cs as [|C Cs IH]; intros z S0; [reflexivity|].
  cbn [reportSubLoops]. apply IH.
Qed.

(** ** Induction over the loop tree *)

Lemma MachineLoop_ind (P : MachineLoop → Prop) :
  (∀ H La Bs Cs, Forall P Cs → P (mkLoop H La Bs Cs)) →
  ∀ L, P L.
Proof.
  intros Hloop. fix IH 1. intros [H La Bs Cs]. apply Hloop.
  induction Cs as [|C Cs IHCs]; constructor; [apply IH | exact IHCs].
Qed.

(** ** Machine arithmetic *)

Lemma wrap32_range z : 0 ≤ wrap32 z < 2 ^ 32.
Proof. unfold wrap32. apply Z.mod_pos_bound. lia. Qed.

Lemma wrap32_small z : 0 ≤ z < 2 ^ 32 → wrap32 z = z.
Proof. unfold wrap32. intros. apply Z.mod_small. lia. Qed.

Lemma wrap32_add_l a b : wrap32 (wrap32 a + b) = wrap32 (a + b).
Proof. unfold wrap32. apply Z.add_mod_idemp_l. lia. Qed.

Lemma wrap32_add_r a b : wrap32 (a + wrap32 b) = wrap32 (a + b).
Proof. unfold wrap32. apply Z.add_mod_idemp_r. lia. Qed.

Lemma wrap32_idemp a : wrap32 (wrap32 a) = wrap32 a.
Proof. apply wrap32_small, wrap32_range. Qed.

(** ** The streams only grow *)

Lemma moreOutput_nil Out : moreOutput Out [] [] = Out.
Proof. destruct Out. unfold moreOutput. cbn. by rewrite !app_nil_r. Qed.

Lemma moreOutput_more Out ds Rs ds' Rs' :
  moreOutput (moreOutput Out ds Rs) ds' Rs' = moreOutput Out (ds ++ ds') (Rs ++ Rs').
Proof. unfold moreOutput. cbn. by rewrite !app_assoc. Qed.

Lemma dbg_more d Out : dbg d Out = moreOutput Out [d] [].
Proof. unfold dbg, moreOutput. by rewrite app_nil_r. Qed.

Lemma emit_more R Out : emit R Out = moreOutput Out [] [R].
Proof. unfold emit, moreOutput. by rewrite app_nil_r. Qed.

(** ** The header scan *)

Lemma scanHeaderStep_eq A n Out MI :
  scanHeaderStep (A, n, Out) MI =
  if qualifying MI
  then (match A with None => Some MI | Some _ => A end,
        wrap32 (n + 1), dbg (DbgInst MI) Out)
  else (A, n, Out).
Proof.
  unfold scanHeaderStep, qualifying.
  by destruct (isDebugInstr MI || isPseudoProbe MI).
Qed.

Lemma scanHeader_fold (Is : list MachineInstr) (A : option MachineInstr)
    (n : Z) (Out : Streams) :
  fold_left scanHeaderStep Is (A, n, Out) =
  ( match A with Some _ => A | None => head (List.filter qualifying Is) end,
    match List.filter qualifying Is with
    | [] => n
    | Q => wrap32 (n + Z.of_nat (length Q))
    end,
    moreOutput Out (map DbgInst (List.filter qualifying Is)) [] ).
Proof.
  revert A n Out. induction Is as [|MI Is IH]; intros A n Out.
  - cbn. by rewrite moreOutput_nil; destruct A.
  - cbn [fold_left List.filter]. rewrite scanHeaderStep_eq.
    destruct (qualifying MI).
    + rewrite IH, dbg_more, moreOutput_more. cbn [app map length head].
      f_equal. f_equal.
      * by destruct A.
      * destruct (List.filter qualifying Is) as [|Q Qs] eqn:E.
        -- f_equal; lia.
        -- rewrite wrap32_add_l. f_equal. cbn [length]. lia.
    + apply IH.
Qed.

Lemma headerScan_eq (Header : MachineBasicBlock) (Out : Streams) :
  headerScan Header Out =
  ( head (headerInsts Header),
    wrap32 (Z.of_nat (length (headerInsts Header))),
    moreOutput Out (map DbgInst (headerInsts Header)) [] ).
Proof.
  unfold headerScan, headerInsts. rewrite scanHeader_fold.
  destruct (List.filter qualifying (Insts Header)); [reflexivity|].
  by rewrite Z.add_0_l.
Qed.

Lemma reportOwn_eq (L : MachineLoop) (numSubLoops : Z) (Out : Streams) :
  reportOwn L numSubLoops Out =
  moreOutput Out (map DbgInst (headerInsts (getHeader L))) (ownRemarks L numSubLoops).
Proof.
  unfold reportOwn, ownRemarks, anchorOf, numInstsOf. rewrite headerScan_eq.
  destruct (latchScan L _) as [A|].
  - by rewrite emit_more, moreOutput_more, !app_nil_r.
  - reflexivity.
Qed.

(** ** The recursion over the loop tree *)

Lemma reportSubLoops_eq (Cs : list MachineLoop) (NestLevel k : Z) (Out : Streams) :
  Forall (λ C, ∀ n Out,
            reportLoop C n Out = moreOutput Out (loopDbg C n) (loopRemarks C)) Cs →
  reportSubLoops Cs NestLevel k Out =
  ( match Cs with [] => k | _ => wrap32 (k + Z.of_nat (length Cs)) end,
    moreOutput Out (flat_map (λ C, loopDbg C (wrap32 (NestLevel + 1))) Cs)
                   (flat_map loopRemarks Cs) ).
Proof.
  intros HCs. revert k Out.
  induction HCs as [|C Cs HC _ IH]; intros k Out.
  - cbn. by rewrite moreOutput_nil.
  - cbn [reportSubLoops flat_map]. rewrite HC, IH, moreOutput_more.
    f_equal. destruct Cs as [|C' Cs'].
    + cbn. f_equal; lia.
    + rewrite wrap32_add_l. f_equal. cbn [length]. lia.
Qed.

Lemma reportLoop_closed (L : MachineLoop) :
  ∀ NestLevel Out,
    reportLoop L NestLevel Out =
    moreOutput Out (loopDbg L NestLevel) (loopRemarks L).
Proof.
  induction L as [H La Bs Cs IH] using MachineLoop_ind. intros n Out.
  rewrite reportLoop_eq. cbn [getSubLoops].
  rewrite (reportSubLoops_eq Cs n 0 _ IH).
  rewrite reportOwn_eq, dbg_more, !moreOutput_more.
  cbn [loopDbg loopRemarks getHeader app]. f_equal.
  destruct Cs; [reflexivity|]. by rewrite Z.add_0_l.
Qed.

Lemma reportLoop_ORE (L : MachineLoop) (NestLevel : Z) (Out : Streams) :
  ORE (reportLoop L NestLevel Out) = ORE Out ++ loopRemarks L.
Proof. by rewrite reportLoop_closed. Qed.

Lemma reportLoop_dbgs (L : MachineLoop) (NestLevel : Z) (Out : Streams) :
  dbgs (reportLoop L NestLevel Out) = dbgs Out ++ loopDbg L NestLevel.
Proof. by rewrite reportLoop_closed. Qed.

Lemma reportOwn_ORE (L : MachineLoop) (k : Z) (Out : Streams) :
  ORE (reportOwn L k Out) = ORE Out ++ ownRemarks L k.
Proof. by rewrite reportOwn_eq. Qed.

Lemma loopRemarks_eq (L : MachineLoop) :
  loopRemarks L =
  flat_map loopRemarks (getSubLoops L) ++ ownRemarks L (numSubLoopsOf L).
Proof. by destruct L. Qed.

Lemma topLevel_fold (Ls : list MachineLoop) (Out : Streams) :
  fold_left (λ Out L, reportLoop L 0 Out) Ls Out =
  moreOutput Out (flat_map (λ L, loopDbg L 0) Ls) (flat_map loopRemarks Ls).
Proof.
  revert Out. induction Ls as [|L Ls IH]; intros Out; cbn [fold_left flat_map].
  - by rewrite moreOutput_nil.
  - by rewrite IH, reportLoop_closed, moreOutput_more.
Qed.

(** Every remark of a loop tree is the own remark of one of its loops. *)
Lemma loopRemarks_own (L : MachineLoop) (R : Remark) :
  R ∈ loopRemarks L →
  ∃ d L', nestedAt L d L' ∧ R ∈ ownRemarks L' (numSubLoopsOf L').
Proof.
  induction L as [H La Bs Cs IH] using MachineLoop_ind.
  rewrite loopRemarks_eq. intros [HR|HR]%elem_of_app.
  - cbn [getSubLoops] in HR. apply list_elem_of_In, in_flat_map in HR.
    destruct HR as (C & HC%list_elem_of_In & HR%list_elem_of_In).
    rewrite Forall_forall in IH.
    destruct (IH C HC HR) as (d & L' & Hn & HR').
    exists (S d), L'. split; [|done]. by apply nested_below with C.
  - exists O, (mkLoop H La Bs Cs). split; [constructor | done].
Qed.

Lemma ownRemarks_inv (L : MachineLoop) (k : Z) (R : Remark) :
  R ∈ ownRemarks L k →
  ∃ A, anchorOf L = Some A ∧ R = loopRemark L A (getNumBlocks L) (numInstsOf L) k.
Proof.
  unfold ownRemarks. destruct (anchorOf L) as [A|].
  - intros ->%list_elem_of_singleton. by exists A.
  - by intros ?%elem_of_nil.
Qed.

(** ** Fields of a loop remark *)

Lemma loopRemark_fields L A nb ni ns :
  getNV "NumBlocks" (loopRemark L A nb ni ns) = Some nb
  ∧ getNV "NumInsts" (loopRemark L A nb ni ns) = Some ni
  ∧ getNV "Bubbles" (loopRemark L A nb ni ns) = Some (bubblesOf ni)
  ∧ getNV "NumSubLoops" (loopRemark L A nb ni ns) = Some ns
  ∧ Block (loopRemark L A nb ni ns) = Some (getHeader L)
  ∧ Loc (loopRemark L A nb ni ns) = getDebugLoc A
  ∧ RemarkName (loopRemark L A nb ni ns) = "LoopInfo2"
  ∧ keysOf (Args (loopRemark L A nb ni ns))
    = ["NumBlocks"; "NumInsts"; "Bubbles"; "NumSubLoops"].
Proof. repeat split; reflexivity. Qed.

Lemma bubblesOf_spec (n : Z) :
  (n mod 10 = 0 → bubblesOf n = 0)
  ∧ (n mod 10 ≠ 0 → bubblesOf n = 10 - n mod 10 ∧ 0 < bubblesOf n < 10).
Proof.
  unfold bubblesOf, MW. pose proof (Z.mod_pos_bound n 10 eq_refl) as Hb.
  destruct (Z.eqb_spec (n mod 10) 0) as [E|E]; cbn [negb];
    split; intros; try done.
  lia.
Qed.

(** A property of the own remark of every loop holds of every remark a
    loop tree emits. *)
Lemma loopRemarks_Forall (P : Remark → Prop) :
  (∀ L A k, anchorOf L = Some A →
            P (loopRemark L A (getNumBlocks L) (numInstsOf L) k)) →
  ∀ L, Forall P (loopRemarks L).
Proof.
  intros HP L. apply Forall_forall. intros R HR.
  destruct (loopRemarks_own L R HR) as (d & L' & _ & HR').
  destruct (ownRemarks_inv _ _ _ HR') as (A & HA & ->). by apply HP.
Qed.

(** ** The latch scan *)

Lemma scanTerminators_find (Ts : list MachineInstr) (A : option MachineInstr) :
  scanTerminators Ts A =
  match List.find hasDebugLoc Ts with Some T => Some T | None => A end.
Proof.
  induction Ts as [|MI Ts IH]; [reflexivity|]. cbn.
  by destruct (hasDebugLoc MI).
Qed.

Lemma find_hasDebugLoc (Ts : list MachineInstr) (T : MachineInstr) :
  List.find hasDebugLoc Ts = Some T →
  ∃ pre post, Ts = pre ++ T :: post
    ∧ Forall (λ MI, getDebugLoc MI = None) pre
    ∧ is_Some (getDebugLoc T).
Proof.
  induction Ts as [|MI Ts IH]; [discriminate|]. cbn.
  destruct (hasDebugLoc MI) eqn:E.
  - intros [= ->]. exists [], Ts. repeat split; [constructor|].
    unfold hasDebugLoc in E. by destruct (getDebugLoc T).
  - intros (pre & post & -> & Hpre & HT)%IH.
    exists (MI :: pre), post. repeat split; [|done].
    constructor; [|done]. unfold hasDebugLoc in E. by destruct (getDebugLoc MI).
Qed.

Lemma latchScan_first (L : MachineLoop) (Latch : MachineBasicBlock)
    (Others : list MachineBasicBlock) (A : option MachineInstr) :
  getLatches L = Latch :: Others →
  latchScan L A =
  match List.find hasDebugLoc (terminators Latch) with
  | Some T => Some T
  | None => A
  end.
Proof.
  intros HL. unfold latchScan, getLoopLatch. rewrite HL. cbn [head].
  apply scanTerminators_find.
Qed.

(** ** Counting the remarks *)

Lemma length_flat_map_sum {A B} (f : A → list B) (l : list A) :
  length (flat_map f l) = list_sum (map (λ x, length (f x)) l).
Proof.
  induction l as [|x l IH]; [reflexivity|].
  cbn [flat_map map list_sum]. by rewrite length_app, IH.
Qed.

Lemma length_ownRemarks L k :
  length (ownRemarks L k) = match anchorOf L with Some _ => 1%nat | None => 0%nat end.
Proof. unfold ownRemarks. by destruct (anchorOf L). Qed.

Lemma list_sum_map_eq {A} (f g : A → nat) (l : list A) :
  Forall (λ x, f x = g x) l → list_sum (map f l) = list_sum (map g l).
Proof.
  induction 1 as [|x l Hx _ IH]; [done|].
  cbn [map]. unfold list_sum in *. cbn [fold_right]. by rewrite Hx, IH.
Qed.

Lemma list_sum_map_le {A} (f g : A → nat) (l : list A) :
  Forall (λ x, (f x ≤ g x)%nat) l → (list_sum (map f l) ≤ list_sum (map g l))%nat.
Proof.
  induction 1 as [|x l Hx _ IH]; [done|].
  cbn [map]. unfold list_sum in *. cbn [fold_right]. lia.
Qed.

Lemma length_loopRemarks (L : MachineLoop) :
  length (loopRemarks L) = numAnchored L.
Proof.
  induction L as [H La Bs Cs IH] using MachineLoop_ind.
  cbn [loopRemarks numAnchored].
  rewrite length_app, length_ownRemarks, length_flat_map_sum.
  by rewrite (list_sum_map_eq _ _ _ IH).
Qed.

Lemma numAnchored_le (L : MachineLoop) :
  (numAnchored L ≤ 1 + numDescendants L)%nat.
Proof.
  induction L as [H La Bs Cs IH] using MachineLoop_ind.
  cbn [numAnchored numDescendants].
  pose proof (list_sum_map_le numAnchored (λ C, S (numDescendants C)) Cs IH).
  destruct (anchorOf _); lia.
Qed.

Lemma numAnchored_all (L : MachineLoop) :
  allAnchored L = true → numAnchored L = (1 + numDescendants L)%nat.
Proof.
  induction L as [H La Bs Cs IH] using MachineLoop_ind.
  cbn [allAnchored numAnchored numDescendants].
  intros [HCs HA]%andb_true_iff.
  rewrite (list_sum_map_eq numAnchored (λ C, S (numDescendants C)) Cs).
  - destruct (anchorOf _); [lia | discriminate].
  - rewrite forallb_forall in HCs. rewrite Forall_forall in IH |- *.
    intros C HC. apply IH; [done|]. by apply HCs, list_elem_of_In.
Qed.

(** ** The nesting level along the recursion *)

Lemma loopDbg_nested (L : MachineLoop) (d : nat) (L' : MachineLoop) :
  nestedAt L d L' →
  ∀ n, 0 ≤ n < 2 ^ 32 → DbgLoop L' (wrap32 (n + Z.of_nat d)) ∈ loopDbg L n.
Proof.
  induction 1 as [L | L C d L' HC Hn IH]; intros n Hrange.
  - rewrite Z.add_0_r, wrap32_small by done. destruct L. cbn. left.
  - destruct L as [H La Bs Cs]. cbn [loopDbg getSubLoops] in *.
    right. apply elem_of_app. left.
    apply list_elem_of_In, in_flat_map. exists C.
    split; [by apply list_elem_of_In|]. apply list_elem_of_In.
    specialize (IH (wrap32 (n + 1)) (wrap32_range _)).
    rewrite wrap32_add_l in IH.
    by replace (n + Z.of_nat (S d)) with (n + 1 + Z.of_nat d) by lia.
Qed.

(** ** The loop reporter *)

(** C1. For every remark [reportLoop] emits, the value under "Bubbles" is 0
    when the value under "NumInsts" is a multiple of 10, and is
    10 - (NumInsts mod 10) otherwise, in which case it lies strictly between
    0 and 10. *)
Theorem C1_bubbles (L : MachineLoop) (NestLevel : Z) (Out : Streams) :
  ∃ Rs, ORE (reportLoop L NestLevel Out) = ORE Out ++ Rs
    ∧ Forall (λ R, ∃ numInsts bubbles,
                getNV "NumInsts" R = Some numInsts
                ∧ getNV "Bubbles" R = Some bubbles
                ∧ (numInsts mod 10 = 0 → bubbles = 0)
                ∧ (numInsts mod 10 ≠ 0 →
                   bubbles = 10 - numInsts mod 10 ∧ 0 < bubbles < 10)) Rs.
Proof.
  exists (loopRemarks L). split; [apply reportLoop_ORE|].
  apply loopRemarks_Forall. intros L' A k _.
  exists (numInstsOf L'), (bubblesOf (numInstsOf L')).
  destruct (bubblesOf_spec (numInstsOf L')) as [H0 H1].
  repeat split; solve [reflexivity | auto | by apply H1].
Qed.

(** The scenario of a header with 12 instructions: 8 bubbles. *)
Example twelveLoop_remark :
  map Args (ORE (reportLoop twelveLoop 0 noOutput)) =
  [[ Str "asm-loop with blocks="; NV "NumBlocks" 2;
     Str " insts="; NV "NumInsts" 12;
     Str " bubbles="; NV "Bubbles" 8;
     Str " subLoops="; NV "NumSubLoops" 0 ]].
Proof. reflexivity. Qed.

(** C2. For a loop with one or more latch blocks, the terminators of the
    first latch are scanned in order and the first one with a source
    location, if any, replaces the anchor found in the header; the remark of
    the loop is then located at that terminator, whatever the header
    holds. *)
Theorem C2_latch_anchor (L : MachineLoop) (Latch : MachineBasicBlock)
    (Others : list MachineBasicBlock) :
  getLatches L = Latch :: Others →
  (∀ A, latchScan L A =
        match List.find hasDebugLoc (terminators Latch) with
        | Some T => Some T
        | None => A
        end)
  ∧ (∀ T, List.find hasDebugLoc (terminators Latch) = Some T →
       ∀ NestLevel Out, ∃ Rs R,
         ORE (reportLoop L NestLevel Out) = ORE Out ++ Rs ++ [R]
         ∧ Block R = Some (getHeader L)
         ∧ Loc R = getDebugLoc T
         ∧ is_Some (Loc R)).
Proof.
  intros HL.
  assert (∀ A, latchScan L A =
               match List.find hasDebugLoc (terminators Latch) with
               | Some T => Some T
               | None => A
               end) as Hscan.
  { intros A. by apply latchScan_first with Others. }
  split; [exact Hscan|]. intros T HT n Out.
  exists (flat_map loopRemarks (getSubLoops L)),
         (loopRemark L T (getNumBlocks L) (numInstsOf L) (numSubLoopsOf L)).
  rewrite reportLoop_ORE, loopRemarks_eq. unfold ownRemarks, anchorOf.
  rewrite Hscan, HT. repeat split.
  cbn [loopRemark Loc]. by destruct (find_hasDebugLoc _ _ HT) as (? & ? & _ & _ & ?).
Qed.

Lemma C2_latch_anchor_witness :
  ∃ Rs R,
    ORE (reportLoop latchLoop 0 noOutput) = ORE noOutput ++ Rs ++ [R]
    ∧ Block R = Some (getHeader latchLoop)
    ∧ Loc R = getDebugLoc (locMI 7)
    ∧ is_Some (Loc R).
Proof.
  exact (proj2 (C2_latch_anchor latchLoop locLatch [] eq_refl)
           (locMI 7) eq_refl 0 noOutput).
Defined.

(** C3, as the code has it. [reportLoop] emits one remark for each loop
    among [L] and the loops nested in it, at any depth, for which an anchor
    was found; these are at most 1 + the number of nested loops, and exactly
    that many when every one of them has an anchor. *)
Theorem C3_record_count (L : MachineLoop) (NestLevel : Z) (Out : Streams) :
  length (ORE (reportLoop L NestLevel Out))
    = (length (ORE Out) + numAnchored L)%nat
  ∧ (numAnchored L ≤ 1 + numDescendants L)%nat
  ∧ (allAnchored L = true → numAnchored L = (1 + numDescendants L)%nat).
Proof.
  rewrite reportLoop_ORE, length_app, length_loopRemarks.
  split; [reflexivity|]. split; [apply numAnchored_le | apply numAnchored_all].
Qed.

Lemma C3_record_count_witness :
  length (ORE (reportLoop outerLoop 0 noOutput)) = 2%nat
  ∧ numAnchored outerLoop = (1 + numDescendants outerLoop)%nat.
Proof.
  destruct (C3_record_count outerLoop 0 noOutput) as (Hlen & _ & Hall).
  split; [exact Hlen | exact (Hall eq_refl)].
Defined.

(** C3, as stated, fails: a loop whose header holds only a debug instruction
    and a pseudo probe and whose latch terminator has no location emits
    nothing, although N = 1. *)
Lemma C3_counterexample :
  numDescendants bareLoop = 0%nat
  ∧ ORE (reportLoop bareLoop 0 noOutput) = []
  ∧ length (ORE (reportLoop bareLoop 0 noOutput))
      ≠ (1 + numDescendants bareLoop)%nat.
Proof. repeat split. vm_compute. discriminate. Qed.

(** C4, as the code has it. No remark carries a nesting level: the named
    values of every remark are NumBlocks, NumInsts, Bubbles and NumSubLoops
    and nothing else. The nesting level is the [NestLevel] argument of
    [reportLoop] only, which the function writes to the debug stream: a loop
    [d] levels below the loop [reportLoop] is called on is entered with
    [NestLevel + d] (modulo 2^32), hence with its depth when the call on a
    root passes 0. *)
Theorem C4_nest_level (L : MachineLoop) (NestLevel : Z) (Out : Streams) :
  0 ≤ NestLevel < 2 ^ 32 →
  (∀ d L', nestedAt L d L' →
     DbgLoop L' (wrap32 (NestLevel + Z.of_nat d))
       ∈ dbgs (reportLoop L NestLevel Out))
  ∧ (∃ Rs, ORE (reportLoop L NestLevel Out) = ORE Out ++ Rs
       ∧ Forall (λ R, keysOf (Args R)
                      = ["NumBlocks"; "NumInsts"; "Bubbles"; "NumSubLoops"]) Rs).
Proof.
  intros Hrange. split.
  - intros d L' Hn. rewrite reportLoop_dbgs. apply elem_of_app. right.
    by apply loopDbg_nested.
  - exists (loopRemarks L). split; [apply reportLoop_ORE|].
    apply loopRemarks_Forall. reflexivity.
Qed.

Lemma innerLoop_nested : nestedAt outerLoop 1 innerLoop.
Proof. apply nested_below with innerLoop; [left | constructor]. Defined.

Lemma C4_nest_level_witness :
  DbgLoop innerLoop 1 ∈ dbgs (reportLoop outerLoop 0 noOutput)
  ∧ DbgLoop outerLoop 0 ∈ dbgs (reportLoop outerLoop 0 noOutput).
Proof.
  assert (0 ≤ 0 < 2 ^ 32) as Hrange by lia.
  destruct (C4_nest_level outerLoop 0 noOutput Hrange) as [Hdbg _].
  split.
  - exact (Hdbg 1%nat innerLoop innerLoop_nested).
  - exact (Hdbg 0%nat outerLoop (nested_here outerLoop)).
Defined.

(** C4, as stated, fails: the remark of [innerLoop] is the same whether the
    loop is a root (depth 0) or the child of [outerLoop] (depth 1), and it
    has no value beyond the four counters; so no reading of a remark yields
    the depth of its loop. *)
Lemma C4_counterexample :
  (∃ R R',
     ORE (reportLoop innerLoop 0 noOutput) = [R]
     ∧ ORE (reportLoop outerLoop 0 noOutput) = [R; R']
     ∧ Block R = Some (getHeader innerLoop)
     ∧ keysOf (Args R) = ["NumBlocks"; "NumInsts"; "Bubbles"; "NumSubLoops"])
  ∧ ¬ ∃ level : Remark → Z,
        ∀ L d L' R,
          nestedAt L d L' →
          R ∈ ORE (reportOwn L' (numSubLoopsOf L') noOutput) →
          level R = Z.of_nat d.
Proof.
  split.
  - eexists _, _. repeat split.
  - intros [level Hlevel].
    assert (∃ R, R ∈ ORE (reportOwn innerLoop (numSubLoopsOf innerLoop) noOutput))
      as [R HR] by (eexists; left).
    pose proof (Hlevel innerLoop 0%nat innerLoop R (nested_here _) HR) as H0.
    pose proof (Hlevel outerLoop 1%nat innerLoop R innerLoop_nested HR) as H1.
    rewrite H0 in H1. discriminate.
Qed.

(** C5. The entry point returns [false] right after the loop over the
    top-level loops: what it emits are the remarks of [reportLoop] on these
    loops, in order, all named LoopInfo2; the remark AsmA that carries the
    average fetch-group size is never emitted, and no line of the fetch-group
    walk reaches the debug stream. *)
Theorem C5_no_fetch_group_remark (MF : MachineFunction) (Out : Streams) :
  ∃ Out' Rs,
    runOnMachineFunction MF Out = (false, Out')
    ∧ Out' = fold_left (λ Out L, reportLoop L 0 Out) (MLI MF)
               (dbg (DbgFunction (getName MF)) Out)
    ∧ ORE Out' = ORE Out ++ Rs
    ∧ Forall (λ R, RemarkName R = "LoopInfo2"
                   ∧ RemarkName R ≠ "AsmA"
                   ∧ "AverageSize" ∉ keysOf (Args R)) Rs.
Proof.
  eexists _, (flat_map loopRemarks (MLI MF)).
  split; [reflexivity|]. split; [reflexivity|].
  rewrite topLevel_fold. split; [reflexivity|].
  assert (∀ L, Forall (λ R, RemarkName R = "LoopInfo2" ∧ RemarkName R ≠ "AsmA"
                            ∧ "AverageSize" ∉ keysOf (Args R)) (loopRemarks L))
    as HF.
  { apply loopRemarks_Forall. intros L' A k _. repeat split; [discriminate|].
    cbn. intros Hin.
    repeat (apply elem_of_cons in Hin as [Hin|Hin]; [discriminate|]).
    by apply elem_of_nil in Hin. }
  apply Forall_forall. intros R HR%list_elem_of_In.
  apply in_flat_map in HR as (L & _ & HR%list_elem_of_In).
  exact (proj1 (Forall_forall _ _) (HF L) R HR).
Qed.

(** C6. The remarks of the loops nested in [L] all precede the remark of [L]
    itself: what [reportLoop] appends is what it appends for each child, in
    order, followed by the at most one remark of [L]. *)
Theorem C6_bottom_up (L : MachineLoop) (NestLevel : Z) (Out : Streams) :
  ∃ Own,
    ORE (reportLoop L NestLevel Out)
      = ORE Out
        ++ flat_map (λ C, ORE (reportLoop C (wrap32 (NestLevel + 1)) noOutput))
             (getSubLoops L)
        ++ Own
    ∧ Own = ORE (reportOwn L (numSubLoopsOf L) noOutput)
    ∧ (length Own ≤ 1)%nat
    ∧ Forall (λ R, Block R = Some (getHeader L)) Own.
Proof.
  exists (ownRemarks L (numSubLoopsOf L)).
  rewrite reportLoop_ORE, loopRemarks_eq, reportOwn_ORE. cbn [ORE noOutput app].
  split; [|split; [reflexivity|split]].
  - do 2 f_equal. apply flat_map_ext. intros C. by rewrite reportLoop_ORE.
  - rewrite length_ownRemarks. destruct (anchorOf L); lia.
  - apply Forall_forall. by intros R (A & _ & ->)%ownRemarks_inv.
Qed.

(** The scenario of the nested loops: the inner remark (20 instructions, 0
    bubbles) comes first, the outer one (5 instructions, 5 bubbles) last. *)
Example outerLoop_remarks :
  map (λ R, (getNV "NumInsts" R, getNV "Bubbles" R, getNV "NumSubLoops" R))
      (ORE (reportLoop outerLoop 0 noOutput)) =
  [ (Some 20, Some 0, Some 0); (Some 5, Some 5, Some 1) ].
Proof. reflexivity. Qed.

Lemma qualifying_false (MI : MachineInstr) :
  isDebugInstr MI = true ∨ isPseudoProbe MI = true → qualifying MI = false.
Proof.
  unfold qualifying. intros [-> | ->]; [reflexivity|].
  by rewrite orb_true_r.
Qed.

Lemma filter_qualifying_skip (pre rest : list MachineInstr) :
  Forall (λ D, isDebugInstr D = true ∨ isPseudoProbe D = true) pre →
  List.filter qualifying (pre ++ rest) = List.filter qualifying rest.
Proof.
  induction 1 as [|D pre HD _ IH]; [reflexivity|].
  cbn [app List.filter]. by rewrite (qualifying_false D HD).
Qed.

(** C8. Debug instructions and pseudo probes do not count: the "NumInsts" of
    every remark is the number of the other instructions of the header the
    remark names, and the anchor the header scan finds is the first of these
    other instructions, however many debug instructions and pseudo probes
    precede it. *)
Theorem C8_debug_skipped (L : MachineLoop) (NestLevel : Z) (Out : Streams) :
  (∃ Rs, ORE (reportLoop L NestLevel Out) = ORE Out ++ Rs
     ∧ Forall (λ R, ∃ H, Block R = Some H
                 ∧ getNV "NumInsts" R
                   = Some (wrap32 (Z.of_nat
                       (length (List.filter qualifying (Insts H)))))) Rs)
  ∧ (∀ H Out0,
       (headerScan H Out0).1
       = (head (List.filter qualifying (Insts H)),
          wrap32 (Z.of_nat (length (List.filter qualifying (Insts H))))))
  ∧ (∀ H Out0 A,
       (headerScan H Out0).1.1 = Some A →
       isDebugInstr A = false ∧ isPseudoProbe A = false)
  ∧ (∀ H Out0 pre MI post,
       Insts H = pre ++ MI :: post →
       Forall (λ D, isDebugInstr D = true ∨ isPseudoProbe D = true) pre →
       isDebugInstr MI = false → isPseudoProbe MI = false →
       (headerScan H Out0).1.1 = Some MI).
Proof.
  split; [|split; [|split]].
  - exists (loopRemarks L). split; [apply reportLoop_ORE|].
    apply loopRemarks_Forall. intros L' A k _. by exists (getHeader L').
  - intros H Out0. by rewrite headerScan_eq.
  - intros H Out0 A. rewrite headerScan_eq. cbn [fst]. unfold headerInsts.
    intros HA. apply head_Some in HA as [Q HQ].
    assert (In A (List.filter qualifying (Insts H))) as HIn
      by (rewrite HQ; left; reflexivity).
    apply filter_In in HIn as [_ Hq]. unfold qualifying in Hq.
    apply negb_true_iff, orb_false_iff in Hq. exact Hq.
  - intros H Out0 pre MI post HI Hpre Hd Hp.
    rewrite headerScan_eq. cbn [fst]. unfold headerInsts.
    rewrite HI, filter_qualifying_skip by done. cbn [List.filter].
    unfold qualifying at 1. by rewrite Hd, Hp.
Qed.

Lemma C8_debug_skipped_witness :
  (headerScan mixedHeader noOutput).1.1 = Some (locMI 3)
  ∧ (headerScan mixedHeader noOutput).1.2 = 2.
Proof.
  destruct (C8_debug_skipped latchLoop 0 noOutput) as (_ & Hscan & _ & Hfirst).
  split.
  - apply (Hfirst mixedHeader noOutput [dbgMI] (locMI 3) [probeMI; realMI]);
      [reflexivity | repeat constructor | reflexivity | reflexivity].
  - rewrite (Hscan mixedHeader noOutput). reflexivity.
Defined.

(** C10. A loop whose header holds no instruction other than debug
    instructions and pseudo probes, and whose only latch has a terminator
    with a source location, does emit a remark: with NumInsts 0, Bubbles 0
    and NumBlocks the number of member blocks of the loop. *)
Theorem C10_latch_only_anchor (L : MachineLoop) (NestLevel : Z) (Out : Streams)
    (Latch : MachineBasicBlock) (T : MachineInstr) :
  Forall (λ D, isDebugInstr D = true ∨ isPseudoProbe D = true)
         (Insts (getHeader L)) →
  getLatches L = [Latch] →
  T ∈ terminators Latch →
  is_Some (getDebugLoc T) →
  ∃ Rs R,
    ORE (reportLoop L NestLevel Out) = ORE Out ++ Rs ++ [R]
    ∧ Block R = Some (getHeader L)
    ∧ is_Some (Loc R)
    ∧ getNV "NumInsts" R = Some 0
    ∧ getNV "Bubbles" R = Some 0
    ∧ getNV "NumBlocks" R = Some (Z.of_nat (length (getBlocks L))).
Proof.
  intros Hhdr HL HT Hloc.
  assert (headerInsts (getHeader L) = []) as Hempty.
  { unfold headerInsts.
    rewrite <- (app_nil_r (Insts (getHeader L))).
    by rewrite filter_qualifying_skip. }
  destruct (List.find hasDebugLoc (terminators Latch)) as [T'|] eqn:Hfind.
  - pose proof (λ A, latchScan_first L Latch [] A HL) as Hscan.
    destruct (find_hasDebugLoc _ _ Hfind) as (pre & post & _ & _ & HT').
    exists (flat_map loopRemarks (getSubLoops L)),
           (loopRemark L T' (getNumBlocks L) (numInstsOf L) (numSubLoopsOf L)).
    rewrite reportLoop_ORE, loopRemarks_eq. unfold ownRemarks, anchorOf.
    rewrite Hscan, Hfind. unfold numInstsOf. rewrite Hempty.
    repeat split. exact HT'.
  - exfalso. apply list_elem_of_In in HT.
    pose proof (find_none _ _ Hfind T HT) as Hno.
    unfold hasDebugLoc in Hno. destruct Hloc as [DL HDL].
    rewrite HDL in Hno. discriminate.
Qed.

Lemma C10_latch_only_anchor_witness :
  ∃ Rs R,
    ORE (reportLoop metaLatchLoop 0 noOutput) = ORE noOutput ++ Rs ++ [R]
    ∧ Block R = Some (getHeader metaLatchLoop)
    ∧ is_Some (Loc R)
    ∧ getNV "NumInsts" R = Some 0
    ∧ getNV "Bubbles" R = Some 0
    ∧ getNV "NumBlocks" R = Some (Z.of_nat (length (getBlocks metaLatchLoop))).
Proof.
  apply (C10_latch_only_anchor metaLatchLoop 0 noOutput locLatch (locMI 7)).
  - repeat (constructor; [(by left) || (by right)|]). constructor.
  - reflexivity.
  - apply list_elem_of_In. right. left. reflexivity.
  - by eexists.
Defined.

(** ** The fetch-group walk *)

Lemma chainWalk_seen fuel Blocks Curr Size (Seen : gset nat) Out :
  Curr ∈ Seen →
  chainWalk (S fuel) Blocks Curr Size Seen Out = Done (Size, Out).
Proof. intros HS. cbn [chainWalk]. by rewrite decide_True. Qed.

Lemma lastSucc_Some (B : MachineBasicBlock) (N : nat) :
  last (Successors B) = Some N →
  Nat.eqb (succ_size B) 0 = false ∧ lastSucc B = Done N.
Proof.
  intros HN. unfold lastSucc, succ_size. rewrite HN. split; [|done].
  by destruct (Successors B).
Qed.

Lemma chainWalk_next fuel Blocks Curr Size (Seen : gset nat) Out B N :
  Curr ∉ Seen → Blocks !! Curr = Some B → last (Successors B) = Some N →
  chainWalk (S fuel) Blocks Curr Size Seen Out =
  chainWalk fuel Blocks N (wrap32 (Size + Z.of_nat (size B))) ({[Curr]} ∪ Seen)
    (dbg (DbgBlock Curr) Out).
Proof.
  intros HS HB HN. cbn [chainWalk]. rewrite decide_False by done.
  unfold deref. rewrite HB. cbn [mbind outcome_bind].
  destruct (lastSucc_Some B N HN) as [-> ->]. reflexivity.
Qed.

Lemma chainWalk_end fuel Blocks Curr Size (Seen : gset nat) Out B :
  Curr ∉ Seen → Blocks !! Curr = Some B → Successors B = [] →
  chainWalk (S fuel) Blocks Curr Size Seen Out =
  Done (wrap32 (Size + Z.of_nat (size B)), dbg (DbgBlock Curr) Out).
Proof.
  intros HS HB HN. cbn [chainWalk]. rewrite decide_False by done.
  unfold deref. rewrite HB. cbn [mbind outcome_bind].
  unfold succ_size. by rewrite HN.
Qed.

(** More fuel does not change a result. *)
Lemma chainWalk_mono fuel :
  ∀ fuel' Blocks Curr Size (Seen : gset nat) Out r,
    (fuel ≤ fuel')%nat →
    chainWalk fuel Blocks Curr Size Seen Out = Done r →
    chainWalk fuel' Blocks Curr Size Seen Out = Done r.
Proof.
  induction fuel as [|fuel IH]; intros fuel' Blocks Curr Size Seen Out r Hle;
    [discriminate|].
  destruct fuel' as [|fuel']; [lia|]. cbn [chainWalk].
  destruct (decide (Curr ∈ Seen)); [done|].
  destruct (deref Blocks Curr) as [B| |]; cbn [mbind outcome_bind]; try done.
  destruct (Nat.eqb (succ_size B) 0); [done|].
  destruct (lastSucc B) as [N| |]; cbn [mbind outcome_bind]; try done.
  apply IH. lia.
Qed.

Lemma size_below (Seen : gset nat) (n : nat) :
  (∀ x, x ∈ Seen → (x < n)%nat) → (size Seen ≤ n)%nat.
Proof.
  intros HS. rewrite <- (size_set_seq (C := gset nat) 0 n).
  apply subseteq_size. intros x Hx. apply elem_of_set_seq. split; [lia|].
  specialize (HS x Hx). lia.
Qed.

Lemma last_elem_of {A} (l : list A) (x : A) : last l = Some x → x ∈ l.
Proof.
  intros Hl. apply last_Some in Hl as [l' ->]. apply elem_of_app. right. left.
Qed.

(** Whatever the successor lists hold, the walk is over within as many
    iterations as there are blocks not seen yet, plus one. *)
Lemma chainWalk_fuel fuel :
  ∀ Blocks Curr Size (Seen : gset nat) Out,
    (∀ x, x ∈ Seen → (x < length Blocks)%nat) →
    (length Blocks < fuel + size Seen)%nat →
    chainWalk fuel Blocks Curr Size Seen Out ≠ OutOfFuel.
Proof.
  induction fuel as [|fuel IH]; intros Blocks Curr Size Seen Out HS Hfuel.
  { pose proof (size_below Seen _ HS). lia. }
  cbn [chainWalk]. destruct (decide (Curr ∈ Seen)) as [Hin|Hnin]; [done|].
  unfold deref. destruct (Blocks !! Curr) as [B|] eqn:HB;
    cbn [mbind outcome_bind]; [|done].
  destruct (Nat.eqb (succ_size B) 0); [done|].
  unfold lastSucc. destruct (last (Successors B)) as [N|];
    cbn [mbind outcome_bind]; [|done].
  apply IH.
  - intros x [->%elem_of_singleton | Hx]%elem_of_union;
      [by apply lookup_lt_Some in HB | by apply HS].
  - rewrite size_union, size_singleton; [lia|]. by apply disjoint_singleton_l.
Qed.

(** On a well-formed graph the walk ends, within as many iterations as there
    are blocks not seen yet, plus one; the blocks it visits are pairwise
    different and were not seen before. *)
Lemma chainWalk_done fuel :
  ∀ Blocks Curr Size (Seen : gset nat) Out,
    wfCFG Blocks →
    (Curr < length Blocks)%nat →
    (∀ x, x ∈ Seen → (x < length Blocks)%nat) →
    (length Blocks < fuel + size Seen)%nat →
    ∃ Size' Vis,
      chainWalk fuel Blocks Curr Size Seen Out
        = Done (Size', moreOutput Out (map DbgBlock Vis) [])
      ∧ NoDup Vis
      ∧ (∀ v, v ∈ Vis → (v ∉ Seen) ∧ (v < length Blocks)%nat).
Proof.
  induction fuel as [|fuel IH]; intros Blocks Curr Size Seen Out Hwf HC HS Hfuel.
  { pose proof (size_below Seen _ HS). lia. }
  destruct (decide (Curr ∈ Seen)) as [Hin|Hnin].
  { exists Size, []. rewrite chainWalk_seen, moreOutput_nil by done.
    split; [reflexivity|]. split; [constructor|].
    intros v Hv. by apply elem_of_nil in Hv. }
  destruct (lookup_lt_is_Some_2 Blocks Curr HC) as [B HB].
  destruct (last (Successors B)) as [N|] eqn:HN.
  - assert (N < length Blocks)%nat as HNlt.
    { unfold wfCFG in Hwf. rewrite Forall_forall in Hwf.
      pose proof (Hwf B (list_elem_of_lookup_2 _ _ _ HB)) as HBs.
      rewrite Forall_forall in HBs. by apply HBs, last_elem_of. }
    destruct (IH Blocks N (wrap32 (Size + Z.of_nat (size B))) ({[Curr]} ∪ Seen)
                (dbg (DbgBlock Curr) Out) Hwf HNlt)
      as (Size' & Vis & Hrun & Hnd & Hvis).
    + intros x [->%elem_of_singleton | Hx]%elem_of_union; [done | by apply HS].
    + rewrite size_union, size_singleton; [lia|].
      by apply disjoint_singleton_l.
    + exists Size', (Curr :: Vis).
      rewrite (chainWalk_next _ _ _ _ _ _ B N) by done.
      rewrite Hrun, dbg_more, moreOutput_more.
      split; [reflexivity|]. split.
      * constructor; [|done]. intros Hin.
        destruct (Hvis Curr Hin) as [Hin' _].
        apply Hin', elem_of_union. left. by apply elem_of_singleton.
      * intros v [-> | Hv]%elem_of_cons; [done|].
        destruct (Hvis v Hv) as [Hv' Hlt]. split; [|done].
        intros Hin. apply Hv', elem_of_union. by right.
  - exists (wrap32 (Size + Z.of_nat (size B))), [Curr].
    apply last_None in HN.
    rewrite (chainWalk_end _ _ _ _ _ _ B), dbg_more by done.
    split; [reflexivity|]. split; [apply NoDup_singleton|].
    by intros v ->%list_elem_of_singleton.
Qed.

(** C7. On every control-flow graph the chain walk ends: it never needs
    more iterations than there are blocks, plus one, and where every
    successor names a block of the function any larger number of iterations
    yields the same finished result. The blocks it visits, one debug line
    each, are pairwise different. A block whose last-listed successor is the
    block itself is counted once, and the walk stops at its second
    iteration. *)
Theorem C7_chain_walk_terminates (Blocks : list MachineBasicBlock)
    (Start : nat) (Size : Z) (Out : Streams) :
  (∀ fuel, (length Blocks < fuel)%nat →
     chainWalk fuel Blocks Start Size ∅ Out ≠ OutOfFuel)
  ∧ (wfCFG Blocks →
     (Start < length Blocks)%nat →
     ∃ Size' Vis,
       (∀ fuel, (length Blocks < fuel)%nat →
          chainWalk fuel Blocks Start Size ∅ Out
            = Done (Size', moreOutput Out (map DbgBlock Vis) []))
       ∧ NoDup Vis
       ∧ (∀ B, Blocks !! Start = Some B →
               last (Successors B) = Some Start →
               Vis = [Start]
               ∧ Size' = wrap32 (Size + Z.of_nat (size B))
               ∧ chainWalk 2 Blocks Start Size ∅ Out
                   = Done (Size', moreOutput Out (map DbgBlock Vis) []))).
Proof.
  split.
  { intros fuel Hfuel. apply chainWalk_fuel.
    - by intros x ?%not_elem_of_empty.
    - rewrite size_empty. lia. }
  intros Hwf HS.
  destruct (chainWalk_done (S (length Blocks)) Blocks Start Size ∅ Out Hwf HS)
    as (Size' & Vis & Hrun & Hnd & _).
  { by intros x ?%not_elem_of_empty. }
  { rewrite size_empty. lia. }
  exists Size', Vis. split; [|split; [done|]].
  - intros fuel Hfuel. apply chainWalk_mono with (S (length Blocks)); [lia|done].
  - intros B HB Hlast.
    assert (chainWalk 2 Blocks Start Size ∅ Out
            = Done (wrap32 (Size + Z.of_nat (size B)),
                    moreOutput Out (map DbgBlock [Start]) [])) as Hself.
    { rewrite (chainWalk_next _ _ _ _ _ _ B Start);
        [|apply not_elem_of_empty|done..].
      rewrite chainWalk_seen; [by rewrite dbg_more|].
      apply elem_of_union. left. by apply elem_of_singleton. }
    pose proof (chainWalk_mono 2 (S (length Blocks)) _ _ _ _ _ _
                  ltac:(lia) Hself) as Hbig.
    rewrite Hrun in Hbig. injection Hbig as -> Hout.
    assert (Vis = [Start]) as ->; [|by rewrite Hself].
    apply app_inv_head in Hout.
    revert Hout. clear. revert Vis.
    intros [|v [|v' Vis]]; cbn; intros; simplify_eq; done.
Qed.

Lemma selfLoopCFG_wf : wfCFG selfLoopCFG.
Proof. unfold wfCFG, selfLoopCFG. repeat constructor. Defined.

Lemma C7_chain_walk_terminates_witness :
  ∃ Size' Vis,
    chainWalk 4 selfLoopCFG 1 0 ∅ noOutput
      = Done (Size', moreOutput noOutput (map DbgBlock Vis) [])
    ∧ NoDup Vis ∧ Vis = [1%nat] ∧ Size' = 3.
Proof.
  assert (1 < length selfLoopCFG)%nat as Hlt by (cbn; lia).
  destruct (proj2 (C7_chain_walk_terminates selfLoopCFG 1 0 noOutput)
              selfLoopCFG_wf Hlt)
    as (Size' & Vis & Hrun & Hnd & Hself).
  exists Size', Vis.
  destruct (Hself (edgeBlock 3 [0%nat; 1%nat] [2%nat; 1%nat]) eq_refl eq_refl)
    as (HVis & HSize & _).
  split; [apply Hrun; cbn; lia|]. split; [exact Hnd|]. split; [exact HVis|].
  rewrite HSize. reflexivity.
Defined.

(** ** The loop over the blocks *)

Lemma singlePredFallthrough_skip Blocks Idx MBB P PB :
  Predecessors MBB = [P] → Blocks !! P = Some PB →
  last (Successors PB) = Some Idx →
  singlePredFallthrough Blocks Idx MBB = Done true.
Proof.
  intros HP HPB HL. unfold singlePredFallthrough, pred_size, deref.
  rewrite HP, HPB. cbn [length Nat.eqb mbind outcome_bind].
  destruct (lastSucc_Some PB Idx HL) as [_ ->]. cbn [mbind outcome_bind].
  by rewrite Nat.eqb_refl.
Qed.

Lemma singlePredFallthrough_start Blocks Idx MBB :
  pred_size MBB ≠ 1%nat → singlePredFallthrough Blocks Idx MBB = Done false.
Proof.
  intros HP. unfold singlePredFallthrough.
  by apply Nat.eqb_neq in HP as ->.
Qed.

Lemma fetchGroupStep_skip fuel Blocks Idx MBB acc :
  singlePredFallthrough Blocks Idx MBB = Done true →
  fetchGroupStep fuel Blocks Idx MBB acc = Done acc.
Proof.
  intros Hs. unfold fetchGroupStep. destruct acc as [[NumFGs Sizes] Out].
  by rewrite Hs.
Qed.

Lemma fetchGroupStep_start fuel Blocks Idx MBB NumFGs Sizes Out Size Out' :
  singlePredFallthrough Blocks Idx MBB = Done false →
  chainWalk fuel Blocks Idx 0 ∅ (dbg DbgStartFG Out) = Done (Size, Out') →
  fetchGroupStep fuel Blocks Idx MBB (NumFGs, Sizes, Out) =
  Done (wrap32 (NumFGs + divideCeil Size 16), wrap32 (Sizes + Size),
        dbg (DbgSize Size) Out').
Proof.
  intros Hs Hw. unfold fetchGroupStep. rewrite Hs. cbn [mbind outcome_bind].
  by rewrite Hw.
Qed.

(** The walk and the loop over the blocks write to the debug stream only. *)
Lemma chainWalk_ORE fuel :
  ∀ Blocks Curr Size (Seen : gset nat) Out Size' Out',
    chainWalk fuel Blocks Curr Size Seen Out = Done (Size', Out') →
    ORE Out' = ORE Out.
Proof.
  induction fuel as [|fuel IH]; intros Blocks Curr Size Seen Out Size' Out';
    [discriminate|].
  cbn [chainWalk]. destruct (decide (Curr ∈ Seen)); [by intros [= _ ->]|].
  destruct (deref Blocks Curr) as [B| |]; cbn [mbind outcome_bind]; try done.
  destruct (Nat.eqb (succ_size B) 0); [by intros [= _ <-]|].
  destruct (lastSucc B) as [N| |]; cbn [mbind outcome_bind]; try done.
  intros Hrun. by rewrite (IH _ _ _ _ _ _ _ Hrun).
Qed.

Lemma fetchGroupStep_ORE fuel Blocks Idx MBB NumFGs Sizes Out NumFGs' Sizes' Out' :
  fetchGroupStep fuel Blocks Idx MBB (NumFGs, Sizes, Out)
    = Done (NumFGs', Sizes', Out') →
  ORE Out' = ORE Out.
Proof.
  unfold fetchGroupStep.
  destruct (singlePredFallthrough Blocks Idx MBB) as [[|]| |];
    cbn [mbind outcome_bind]; try done.
  - by intros [= _ _ ->].
  - destruct (chainWalk fuel Blocks Idx 0 ∅ (dbg DbgStartFG Out))
      as [[Size W]| |] eqn:Hrun; cbn [mbind outcome_bind]; try done.
    intros [= _ _ <-]. apply (chainWalk_ORE _ _ _ _ _ _ _ _ Hrun).
Qed.

Lemma fetchGroupLoop_ORE fuel Blocks (Rest : list MachineBasicBlock) :
  ∀ Idx NumFGs Sizes Out NumFGs' Sizes' Out',
    fetchGroupLoop fuel Blocks Idx Rest (NumFGs, Sizes, Out)
      = Done (NumFGs', Sizes', Out') →
    ORE Out' = ORE Out.
Proof.
  induction Rest as [|MBB Rest IH]; intros Idx NumFGs Sizes Out NumFGs' Sizes' Out'.
  - by intros [= _ _ ->].
  - cbn [fetchGroupLoop].
    destruct (fetchGroupStep fuel Blocks Idx MBB (NumFGs, Sizes, Out))
      as [[[N1 S1] O1]| |] eqn:Hstep; cbn [mbind outcome_bind]; try done.
    intros Hrest. rewrite (IH _ _ _ _ _ _ _ Hrest).
    by apply fetchGroupStep_ORE in Hstep.
Qed.

(** Were they reached, the statements after the first [return] would emit
    one remark, named AsmA, with the average size as its only value. *)
Lemma fetchGroups_emits fuel MF Out b Out' :
  fetchGroups fuel MF Out = Done (b, Out') →
  b = false
  ∧ ∃ R, ORE Out' = ORE Out ++ [R]
       ∧ RemarkName R = "AsmA"
       ∧ keysOf (Args R) = ["AverageSize"].
Proof.
  unfold fetchGroups.
  destruct (fetchGroupLoop _ _ _ _ _) as [[[NumFGs Sizes] O1]| |] eqn:Hloop;
    cbn [mbind outcome_bind]; try done.
  destruct (deref (MFBlocks MF) 0) as [front| |]; cbn [mbind outcome_bind];
    try done.
  intros [= <- <-]. split; [reflexivity|].
  eexists. cbn [emit dbg ORE]. rewrite (fetchGroupLoop_ORE _ _ _ _ _ _ _ _ _ _ Hloop).
  repeat split.
Qed.

(** C9. Four blocks in one straight line: the entry is not a block with a
    single predecessor, each later block has the block before it as its only
    predecessor and is the last-listed successor of that block, the
    successors of the last block, if it has any, are blocks of the function,
    and the instruction counts add up to 40. Then exactly one fetch group is
    started,
    at the entry; it runs through the four blocks and has Size 40, and the
    loop over the blocks adds ceil(40/16) = 3 to NumFGs and 40 to Sizes. *)
Theorem C9_straight_line_chain (B0 B1 B2 B3 : MachineBasicBlock) (fuel : nat)
    (NumFGs Sizes : Z) (Out : Streams) :
  pred_size B0 ≠ 1%nat →
  Predecessors B1 = [0%nat] →
  Predecessors B2 = [1%nat] →
  Predecessors B3 = [2%nat] →
  last (Successors B0) = Some 1%nat →
  last (Successors B1) = Some 2%nat →
  last (Successors B2) = Some 3%nat →
  Forall (λ N, (N < 4)%nat) (Successors B3) →
  (size B0 + size B1 + size B2 + size B3 = 40)%nat →
  (4 < fuel)%nat →
  fetchGroupLoop fuel [B0; B1; B2; B3] 0 [B0; B1; B2; B3] (NumFGs, Sizes, Out)
    = Done (wrap32 (NumFGs + 3), wrap32 (Sizes + 40),
            moreOutput Out [ DbgStartFG; DbgBlock 0; DbgBlock 1; DbgBlock 2;
                             DbgBlock 3; DbgSize 40 ] [])
  ∧ divideCeil 40 16 = 3.
Proof.
  intros HP0 HP1 HP2 HP3 HS0 HS1 HS2 HS3 Hsize Hfuel.
  split; [|reflexivity].
  set (Blocks := [B0; B1; B2; B3]).
  assert (∀ Out0, chainWalk fuel Blocks 0 0 ∅ Out0
            = Done (40, moreOutput Out0 [DbgBlock 0; DbgBlock 1; DbgBlock 2;
                                         DbgBlock 3] [])) as Hwalk.
  { intros Out0.
    assert (wrap32 (wrap32 (wrap32 (wrap32 (0 + Z.of_nat (size B0))
              + Z.of_nat (size B1)) + Z.of_nat (size B2)) + Z.of_nat (size B3))
            = 40) as Hsum.
    { rewrite (wrap32_small (0 + Z.of_nat (size B0))) by lia.
      rewrite (wrap32_small (0 + _ + Z.of_nat (size B1))) by lia.
      rewrite (wrap32_small (0 + _ + _ + Z.of_nat (size B2))) by lia.
      rewrite wrap32_small by lia. lia. }
    destruct fuel as [|[|[|[|[|fuel]]]]]; try lia.
    rewrite (chainWalk_next _ Blocks 0 _ _ _ B0 1) by seen_solver.
    rewrite (chainWalk_next _ Blocks 1 _ _ _ B1 2) by seen_solver.
    rewrite (chainWalk_next _ Blocks 2 _ _ _ B2 3) by seen_solver.
    destruct (last (Successors B3)) as [N|] eqn:HL.
    - rewrite (chainWalk_next _ Blocks 3 _ _ _ B3 N) by seen_solver.
      rewrite Hsum, !dbg_more, !moreOutput_more. cbn [app].
      rewrite chainWalk_seen; [reflexivity|].
      rewrite Forall_forall in HS3.
      pose proof (HS3 N (last_elem_of _ _ HL)) as HN.
      destruct N as [|[|[|[|N]]]]; [seen_solver..|lia].
    - apply last_None in HL.
      rewrite (chainWalk_end _ Blocks 3 _ _ _ B3) by seen_solver.
      by rewrite Hsum, !dbg_more, !moreOutput_more. }
  unfold Blocks at 2. cbn [fetchGroupLoop].
  rewrite (fetchGroupStep_start fuel Blocks 0 B0 NumFGs Sizes Out 40 _
             (singlePredFallthrough_start _ _ _ HP0) (Hwalk _)).
  cbn [mbind outcome_bind].
  rewrite (fetchGroupStep_skip fuel Blocks 1 B1 _
             (singlePredFallthrough_skip Blocks 1 B1 0 B0 HP1 eq_refl HS0)).
  cbn [mbind outcome_bind].
  rewrite (fetchGroupStep_skip fuel Blocks 2 B2 _
             (singlePredFallthrough_skip Blocks 2 B2 1 B1 HP2 eq_refl HS1)).
  cbn [mbind outcome_bind].
  rewrite (fetchGroupStep_skip fuel Blocks 3 B3 _
             (singlePredFallthrough_skip Blocks 3 B3 2 B2 HP3 eq_refl HS2)).
  cbn [mbind outcome_bind].
  rewrite !dbg_more, !moreOutput_more. reflexivity.
Qed.

Lemma C9_straight_line_chain_witness :
  fetchGroupLoop 5 chain4 0 chain4 (0, 0, noOutput)
    = Done (wrap32 (0 + 3), wrap32 (0 + 40),
            moreOutput noOutput [ DbgStartFG; DbgBlock 0; DbgBlock 1;
                                  DbgBlock 2; DbgBlock 3; DbgSize 40 ] [])
  ∧ divideCeil 40 16 = 3.
Proof.
  apply (C9_straight_line_chain
           (edgeBlock 10 [] [1%nat]) (edgeBlock 10 [0%nat] [2%nat])
           (edgeBlock 10 [1%nat] [3%nat]) (edgeBlock 10 [2%nat] [])
           5 0 0 noOutput);
    try reflexivity.
  - discriminate.
  - constructor.
  - lia.
Defined.

(** * Further properties *)

(** ** The loop reporter *)

Lemma scanTerminators_origin (Ts : list MachineInstr)
    (A0 : option MachineInstr) (A : MachineInstr) :
  scanTerminators Ts A0 = Some A →
  (A ∈ Ts ∧ is_Some (getDebugLoc A))
  ∨ (A0 = Some A ∧ Forall (λ MI, getDebugLoc MI = None) Ts).
Proof.
  induction Ts as [|MI Ts IH]; cbn [scanTerminators].
  - intros ->. right. split; [done | constructor].
  - unfold hasDebugLoc. destruct (getDebugLoc MI) as [DL|] eqn:E.
    + intros [= ->]. left. split; [left | by rewrite E].
    + intros [[Hin Hloc] | [-> Hall]]%IH.
      * left. split; [by right | done].
      * right. split; [done | by constructor].
Qed.

Lemma scanTerminators_None (Ts : list MachineInstr) :
  scanTerminators Ts None = None ↔ Forall (λ MI, getDebugLoc MI = None) Ts.
Proof.
  induction Ts as [|MI Ts IH]; cbn [scanTerminators].
  - split; [constructor | done].
  - unfold hasDebugLoc. destruct (getDebugLoc MI) as [DL|] eqn:E.
    + split; [done|]. intros HF. apply Forall_cons in HF as [HF _]. congruence.
    + rewrite IH. split; [by constructor | by intros [_ ?]%Forall_cons].
Qed.

Lemma qualifying_false_iff (MI : MachineInstr) :
  qualifying MI = false ↔ isDebugInstr MI = true ∨ isPseudoProbe MI = true.
Proof.
  unfold qualifying. destruct (isDebugInstr MI), (isPseudoProbe MI); cbn;
    intuition congruence.
Qed.

Lemma headerInsts_nil (H : MachineBasicBlock) :
  headerInsts H = []
  ↔ Forall (λ D, isDebugInstr D = true ∨ isPseudoProbe D = true) (Insts H).
Proof.
  unfold headerInsts. induction (Insts H) as [|MI Is IH]; cbn [List.filter].
  - split; [constructor | done].
  - rewrite Forall_cons, <- qualifying_false_iff.
    destruct (qualifying MI).
    + split; [discriminate | by intros [? _]].
    + rewrite IH. split; [by intros; split | by intros [_ ?]].
Qed.

Lemma headerInsts_elem (H : MachineBasicBlock) (A : MachineInstr) :
  A ∈ headerInsts H →
  A ∈ Insts H ∧ isDebugInstr A = false ∧ isPseudoProbe A = false.
Proof.
  unfold headerInsts. intros [Hin Hq]%list_elem_of_In%filter_In.
  split; [by apply list_elem_of_In|].
  unfold qualifying in Hq. by apply negb_true_iff, orb_false_iff in Hq.
Qed.

(** Where the anchor of a loop comes from. *)
Lemma anchorOf_origin (L : MachineLoop) (A : MachineInstr) :
  anchorOf L = Some A →
  (∃ Latch, getLoopLatch L = Some Latch ∧ A ∈ terminators Latch
            ∧ is_Some (getDebugLoc A))
  ∨ head (headerInsts (getHeader L)) = Some A.
Proof.
  unfold anchorOf, latchScan. destruct (getLoopLatch L) as [Latch|]; [|by right].
  intros [[Hin Hloc] | [HA _]]%scanTerminators_origin; [left | by right].
  by exists Latch.
Qed.

Lemma anchorOf_None (L : MachineLoop) :
  anchorOf L = None
  ↔ Forall (λ D, isDebugInstr D = true ∨ isPseudoProbe D = true)
           (Insts (getHeader L))
    ∧ (∀ Latch, getLoopLatch L = Some Latch →
                Forall (λ MI, getDebugLoc MI = None) (terminators Latch)).
Proof.
  unfold anchorOf, latchScan. rewrite <- headerInsts_nil.
  destruct (headerInsts (getHeader L)) as [|Q Qs] eqn:EQ; cbn [head].
  - destruct (getLoopLatch L) as [Latch|].
    + rewrite scanTerminators_None. split.
      * intros HF. split; [done|]. by intros ? [= <-].
      * intros [_ HF]. by apply HF.
    + split; [|done]. intros _. split; [done | by intros ? [=]].
  - split; [|by intros [[=] _]].
    destruct (getLoopLatch L) as [Latch|]; [|done].
    intros HN. exfalso. revert HN. generalize (terminators Latch).
    intros Ts. induction Ts as [|MI Ts IH]; cbn [scanTerminators]; [done|].
    by destruct (hasDebugLoc MI).
Qed.

(** X1. Every remark [reportLoop] emits describes one loop of the tree it is
    called on: it has the pass name and the remark name of the loop report,
    names the header of that loop, and gives the number of its member blocks
    and the number of its direct sub-loops (not of all nested loops), the
    latter modulo 2^32. *)
Theorem X1_remark_describes_loop (L : MachineLoop) (NestLevel : Z)
    (Out : Streams) :
  ∃ Rs, ORE (reportLoop L NestLevel Out) = ORE Out ++ Rs
    ∧ Forall (λ R, ∃ d L',
                nestedAt L d L'
                ∧ PassName R = "asma"
                ∧ RemarkName R = "LoopInfo2"
                ∧ Block R = Some (getHeader L')
                ∧ getNV "NumBlocks" R = Some (Z.of_nat (length (getBlocks L')))
                ∧ getNV "NumSubLoops" R
                  = Some (wrap32 (Z.of_nat (length (getSubLoops L'))))) Rs.
Proof.
  exists (loopRemarks L). split; [apply reportLoop_ORE|].
  apply Forall_forall. intros R HR.
  destruct (loopRemarks_own L R HR) as (d & L' & Hn & HR').
  destruct (ownRemarks_inv _ _ _ HR') as (A & _ & ->).
  exists d, L'. repeat split. exact Hn.
Qed.

(** X2. The location of every remark is that of an instruction of the loop
    it describes: a terminator of the latch [getLoopLatch] yields, which then
    has a location, or an instruction of the header that is neither a debug
    instruction nor a pseudo probe. *)
Theorem X2_anchor_origin (L : MachineLoop) (NestLevel : Z) (Out : Streams) :
  ∃ Rs, ORE (reportLoop L NestLevel Out) = ORE Out ++ Rs
    ∧ Forall (λ R, ∃ d L' A,
                nestedAt L d L'
                ∧ Block R = Some (getHeader L')
                ∧ Loc R = getDebugLoc A
                ∧ ((∃ Latch, getLoopLatch L' = Some Latch
                             ∧ A ∈ terminators Latch ∧ is_Some (Loc R))
                   ∨ (A ∈ Insts (getHeader L')
                      ∧ isDebugInstr A = false
                      ∧ isPseudoProbe A = false))) Rs.
Proof.
  exists (loopRemarks L). split; [apply reportLoop_ORE|].
  apply Forall_forall. intros R HR.
  destruct (loopRemarks_own L R HR) as (d & L' & Hn & HR').
  destruct (ownRemarks_inv _ _ _ HR') as (A & HA & ->).
  exists d, L', A. split; [exact Hn|]. split; [reflexivity|].
  split; [reflexivity|].
  destruct (anchorOf_origin L' A HA) as [(Latch & HL & Hin & Hloc) | Hhd].
  - left. by exists Latch.
  - right. apply headerInsts_elem.
    destruct (headerInsts (getHeader L')) as [|Q Qs]; [discriminate|].
    injection Hhd as ->. left.
Qed.

(** X3. What [reportLoop] appends to the two streams does not depend on what
    they hold already, which it leaves in place, and the remarks it appends
    do not depend on the nesting level it is called with. *)
Theorem X3_output_is_appended (L : MachineLoop) (NestLevel Other : Z)
    (Out : Streams) :
  ORE (reportLoop L NestLevel Out)
    = ORE Out ++ ORE (reportLoop L Other noOutput)
  ∧ dbgs (reportLoop L NestLevel Out)
    = dbgs Out ++ dbgs (reportLoop L NestLevel noOutput).
Proof. by rewrite !reportLoop_ORE, !reportLoop_dbgs. Qed.

(** X4. A loop adds no remark of its own to those of its sub-loops exactly
    when every instruction of its header is a debug instruction or a pseudo
    probe and no terminator of the latch [getLoopLatch] yields, if it yields
    one, has a location. *)
Theorem X4_silent_loop (L : MachineLoop) (NestLevel : Z) (Out : Streams) :
  ORE (reportLoop L NestLevel Out)
    = ORE Out
      ++ flat_map (λ C, ORE (reportLoop C (wrap32 (NestLevel + 1)) noOutput))
           (getSubLoops L)
  ↔ Forall (λ D, isDebugInstr D = true ∨ isPseudoProbe D = true)
           (Insts (getHeader L))
    ∧ (∀ Latch, getLoopLatch L = Some Latch →
                Forall (λ MI, getDebugLoc MI = None) (terminators Latch)).
Proof.
  rewrite <- anchorOf_None, reportLoop_ORE, loopRemarks_eq.
  assert (flat_map (λ C, ORE (reportLoop C (wrap32 (NestLevel + 1)) noOutput))
            (getSubLoops L) = flat_map loopRemarks (getSubLoops L)) as ->.
  { apply flat_map_ext. intros C. by rewrite reportLoop_ORE. }
  unfold ownRemarks. destruct (anchorOf L) as [A|].
  - split; [|discriminate]. intros Heq. exfalso.
    apply app_inv_head in Heq.
    rewrite <- (app_nil_r (flat_map _ _)) in Heq at 2.
    by apply app_inv_head in Heq.
  - by rewrite app_nil_r.
Qed.

Lemma X4_silent_loop_witness :
  ORE (reportLoop bareLoop 0 noOutput)
    = ORE noOutput
      ++ flat_map (λ C, ORE (reportLoop C (wrap32 (0 + 1)) noOutput))
           (getSubLoops bareLoop).
Proof.
  apply (proj2 (X4_silent_loop bareLoop 0 noOutput)). split.
  - repeat (constructor; [(by left) || (by right)|]). constructor.
  - intros Latch [= <-]. repeat constructor.
Defined.

(** X5. When no terminator of the latch has a location, or there is no
    latch, the remark of a loop takes the location of the first header
    instruction that is neither a debug instruction nor a pseudo probe,
    whether or not that instruction has a location: the remark is emitted
    with an empty location when it has none. *)
Theorem X5_header_anchor (L : MachineLoop) (NestLevel : Z) (Out : Streams)
    (pre post : list MachineInstr) (MI : MachineInstr) :
  Insts (getHeader L) = pre ++ MI :: post →
  Forall (λ D, isDebugInstr D = true ∨ isPseudoProbe D = true) pre →
  isDebugInstr MI = false →
  isPseudoProbe MI = false →
  (∀ Latch, getLoopLatch L = Some Latch →
            Forall (λ T, getDebugLoc T = None) (terminators Latch)) →
  ∃ Rs R,
    ORE (reportLoop L NestLevel Out) = ORE Out ++ Rs ++ [R]
    ∧ Block R = Some (getHeader L)
    ∧ Loc R = getDebugLoc MI.
Proof.
  intros HI Hpre Hd Hp Hlatch.
  assert (anchorOf L = Some MI) as HA.
  { unfold anchorOf, headerInsts. rewrite HI, filter_qualifying_skip by done.
    cbn [List.filter]. unfold qualifying at 1. rewrite Hd, Hp. cbn [head].
    unfold latchScan. destruct (getLoopLatch L) as [Latch|]; [|done].
    specialize (Hlatch Latch eq_refl).
    induction Hlatch as [|T Ts HT _ IH]; cbn [scanTerminators]; [done|].
    unfold hasDebugLoc. by rewrite HT. }
  exists (flat_map loopRemarks (getSubLoops L)),
         (loopRemark L MI (getNumBlocks L) (numInstsOf L) (numSubLoopsOf L)).
  rewrite reportLoop_ORE, loopRemarks_eq. unfold ownRemarks. rewrite HA.
  repeat split.
Qed.

Lemma X5_header_anchor_witness :
  ∃ Rs R,
    ORE (reportLoop twelveLoop 0 noOutput) = ORE noOutput ++ Rs ++ [R]
    ∧ Block R = Some (getHeader twelveLoop)
    ∧ Loc R = getDebugLoc realMI.
Proof.
  apply (X5_header_anchor twelveLoop 0 noOutput [] (repeat realMI 11) realMI);
    try reflexivity.
  - constructor.
  - intros Latch [= <-]. repeat constructor.
Defined.

Lemma mod10_unique (q s : Z) : 0 ≤ s < 10 → (10 * q + s) mod 10 = s.
Proof.
  intros Hs. rewrite Z.add_comm, Z.mul_comm, Z_mod_plus_full.
  by apply Z.mod_small.
Qed.

Lemma bubblesOf_least (n : Z) :
  0 ≤ bubblesOf n < 10
  ∧ (n + bubblesOf n) mod 10 = 0
  ∧ (∀ b, 0 ≤ b < bubblesOf n → (n + b) mod 10 ≠ 0).
Proof.
  unfold bubblesOf, MW.
  pose proof (Z.mod_pos_bound n 10 eq_refl) as Hr.
  pose proof (Z.div_mod n 10 ltac:(lia)) as Hn.
  destruct (Z.eqb_spec (n mod 10) 0) as [E|E]; cbn [negb].
  - split; [lia|]. split; [by rewrite Z.add_0_r | lia].
  - split; [lia|]. split.
    + replace (n + (10 - n mod 10)) with (10 * (n / 10 + 1) + 0) by lia.
      by apply mod10_unique.
    + intros b Hb.
      replace (n + b) with (10 * (n / 10) + (n mod 10 + b)) by lia.
      rewrite mod10_unique; lia.
Qed.

(** X6. The "Bubbles" of every remark is the least number of slots that pads
    its "NumInsts" to a multiple of 10: it lies between 0 and 9, NumInsts +
    Bubbles is a multiple of 10, and no smaller non-negative number has that
    property. *)
Theorem X6_bubbles_least_padding (L : MachineLoop) (NestLevel : Z)
    (Out : Streams) :
  ∃ Rs, ORE (reportLoop L NestLevel Out) = ORE Out ++ Rs
    ∧ Forall (λ R, ∃ numInsts bubbles,
                getNV "NumInsts" R = Some numInsts
                ∧ getNV "Bubbles" R = Some bubbles
                ∧ 0 ≤ bubbles < 10
                ∧ (numInsts + bubbles) mod 10 = 0
                ∧ (∀ b, 0 ≤ b < bubbles → (numInsts + b) mod 10 ≠ 0)) Rs.
Proof.
  exists (loopRemarks L). split; [apply reportLoop_ORE|].
  apply loopRemarks_Forall. intros L' A k _.
  exists (numInstsOf L'), (bubblesOf (numInstsOf L')).
  split; [reflexivity|]. split; [reflexivity|]. apply bubblesOf_least.
Qed.

Lemma filter_flat_map_length {A B} (f : B → bool) (g : A → list B) (l : list A) :
  length (List.filter f (flat_map g l))
  = list_sum (map (λ x, length (List.filter f (g x))) l).
Proof.
  induction l as [|x l IH]; [reflexivity|].
  cbn [flat_map map]. rewrite List.filter_app, length_app, IH.
  unfold list_sum. reflexivity.
Qed.

Lemma filter_isDbgLoop_insts (Is : list MachineInstr) :
  List.filter isDbgLoop (map DbgInst Is) = [].
Proof. induction Is as [|MI Is IH]; [reflexivity | exact IH]. Qed.

Lemma loopDbg_entries (L : MachineLoop) :
  ∀ NestLevel,
    length (List.filter isDbgLoop (loopDbg L NestLevel)) = S (numDescendants L).
Proof.
  induction L as [H La Bs Cs IH] using MachineLoop_ind. intros n.
  cbn [loopDbg List.filter isDbgLoop length numDescendants]. f_equal.
  rewrite List.filter_app, filter_isDbgLoop_insts, app_nil_r.
  rewrite filter_flat_map_length. apply list_sum_map_eq.
  eapply Forall_impl; [exact IH|]. intros C HC. apply HC.
Qed.

(** X7. [reportLoop] is entered exactly once for each loop of the tree it is
    called on, also for the loops that emit no remark: it writes 1 + the
    number of nested loops lines that start a loop to the debug stream. *)
Theorem X7_each_loop_entered_once (L : MachineLoop) (NestLevel : Z)
    (Out : Streams) :
  length (List.filter isDbgLoop (dbgs (reportLoop L NestLevel Out)))
  = (length (List.filter isDbgLoop (dbgs Out)) + (1 + numDescendants L))%nat.
Proof.
  by rewrite reportLoop_dbgs, List.filter_app, length_app, loopDbg_entries.
Qed.

(** X8. The entry point reports the top-level loops in the order of their
    enumeration, each with nesting level 0: the remarks it appends are those
    of the first loop, then those of the second, and so on; its first debug
    line names the function; and it returns [false]. *)
Theorem X8_top_level_order (MF : MachineFunction) (Out : Streams) :
  (runOnMachineFunction MF Out).1 = false
  ∧ ORE (runOnMachineFunction MF Out).2
    = ORE Out ++ flat_map (λ L, ORE (reportLoop L 0 noOutput)) (MLI MF)
  ∧ dbgs (runOnMachineFunction MF Out).2
    = dbgs Out ++ DbgFunction (getName MF)
        :: flat_map (λ L, dbgs (reportLoop L 0 noOutput)) (MLI MF).
Proof.
  unfold runOnMachineFunction. cbn [fst snd]. rewrite topLevel_fold.
  split; [reflexivity|]. split.
  - cbn. f_equal. apply flat_map_ext. intros L. by rewrite reportLoop_ORE.
  - cbn. rewrite <- app_assoc. cbn [app]. do 2 f_equal.
    apply flat_map_ext. intros L. by rewrite reportLoop_dbgs.
Qed.

(** X9. The entry point emits one remark for each loop of the forest that
    has an anchor, hence at most as many remarks as the forest has loops, and
    none for a function without loops. *)
Theorem X9_at_most_one_remark_per_loop (MF : MachineFunction) (Out : Streams) :
  length (ORE (runOnMachineFunction MF Out).2)
    = (length (ORE Out) + list_sum (map numAnchored (MLI MF)))%nat
  ∧ (length (ORE (runOnMachineFunction MF Out).2)
       ≤ length (ORE Out) + numLoops (MLI MF))%nat
  ∧ (MLI MF = [] → ORE (runOnMachineFunction MF Out).2 = ORE Out).
Proof.
  unfold runOnMachineFunction. cbn [snd]. rewrite topLevel_fold.
  cbn [moreOutput ORE dbg].
  assert (length (flat_map loopRemarks (MLI MF))
          = list_sum (map numAnchored (MLI MF))) as Hlen.
  { rewrite length_flat_map_sum. apply list_sum_map_eq, Forall_forall.
    intros L _. apply length_loopRemarks. }
  rewrite length_app, Hlen. split; [reflexivity|]. split.
  - apply Nat.add_le_mono_l. unfold numLoops. apply list_sum_map_le, Forall_forall.
    intros L _. apply numAnchored_le.
  - intros ->. cbn. by rewrite app_nil_r.
Qed.

Lemma X9_at_most_one_remark_per_loop_witness :
  ORE (runOnMachineFunction flatMF noOutput).2 = ORE noOutput
  ∧ length (ORE (runOnMachineFunction nestMF noOutput).2) = 2%nat.
Proof.
  split.
  - exact (proj2 (proj2 (X9_at_most_one_remark_per_loop flatMF noOutput)) eq_refl).
  - exact (proj1 (X9_at_most_one_remark_per_loop nestMF noOutput)).
Defined.

(** ** The fetch-group walk *)

Lemma lastSucc_Done (B : MachineBasicBlock) (N : nat) :
  lastSucc B = Done N → last (Successors B) = Some N.
Proof. unfold lastSucc. destruct (last (Successors B)); [by intros [= ->] | done]. Qed.

Lemma deref_Done Blocks P B : deref Blocks P = Done B → Blocks !! P = Some B.
Proof. unfold deref. destruct (Blocks !! P); [by intros [= ->] | done]. Qed.

(** What a finished walk has done: the blocks it has visited start at
    [Curr], unless [Curr] was seen already, follow last-listed successors,
    are new and pairwise different, and their sizes make up the result. *)
Lemma chainWalk_path fuel :
  ∀ Blocks Curr Size (Seen : gset nat) Out Size' Out',
    0 ≤ Size < 2 ^ 32 →
    chainWalk fuel Blocks Curr Size Seen Out = Done (Size', Out') →
    ∃ Vis,
      Out' = moreOutput Out (map DbgBlock Vis) []
      ∧ Size' = wrap32 (Size + sizeSum Blocks Vis)
      ∧ match Vis with
        | [] => Curr ∈ Seen
        | v :: _ => v = Curr ∧ Curr ∉ Seen
        end
      ∧ lastLinked Blocks Vis
      ∧ NoDup Vis
      ∧ (∀ v, v ∈ Vis → v ∉ Seen).
Proof.
  induction fuel as [|fuel IH];
    intros Blocks Curr Size Seen Out Size' Out' HSize; [discriminate|].
  cbn [chainWalk]. destruct (decide (Curr ∈ Seen)) as [Hin|Hnin].
  { intros [= <- <-]. exists []. rewrite moreOutput_nil. cbn [sizeSum].
    rewrite Z.add_0_r, wrap32_small by done.
    repeat split; [done | constructor | by intros v ?%elem_of_nil]. }
  destruct (deref Blocks Curr) as [B| |] eqn:HB; cbn [mbind outcome_bind];
    try done.
  apply deref_Done in HB.
  destruct (Nat.eqb (succ_size B) 0).
  { intros [= <- <-]. exists [Curr]. rewrite dbg_more. cbn [sizeSum map].
    rewrite HB, Z.add_0_r.
    repeat split; [done | apply NoDup_singleton |].
    by intros v ->%list_elem_of_singleton. }
  destruct (lastSucc B) as [N| |] eqn:HN; cbn [mbind outcome_bind]; try done.
  apply lastSucc_Done in HN. intros Hrun.
  destruct (IH _ _ _ _ _ _ _ (wrap32_range _) Hrun)
    as (Vis & -> & -> & Hhead & Hlink & Hnd & Hnew).
  exists (Curr :: Vis). rewrite dbg_more, moreOutput_more. cbn [sizeSum map app].
  rewrite HB, wrap32_add_l.
  split; [reflexivity|]. split; [f_equal; lia|]. split; [done|].
  assert (Curr ∉ Vis) as HCV.
  { intros HC. apply (Hnew Curr HC), elem_of_union. left.
    by apply elem_of_singleton. }
  split; [|split].
  - cbn [lastLinked]. split; [|done].
    destruct Vis as [|w Vis']; [done|]. destruct Hhead as [-> _]. by exists B.
  - by constructor.
  - intros v [-> | Hv]%elem_of_cons; [done|].
    intros Hin. apply (Hnew v Hv), elem_of_union. by right.
Qed.

(** X10. A walk that has finished, started as the source starts it (Size 0,
    nothing seen), has visited the start block first and then, from each
    block, its last-listed successor only; the visited blocks are pairwise
    different, each has one line on the debug stream, and the resulting Size
    is the sum of their instruction counts modulo 2^32. *)
Theorem X10_walk_result (fuel : nat) (Blocks : list MachineBasicBlock)
    (Start : nat) (Out : Streams) (Size' : Z) (Out' : Streams) :
  chainWalk fuel Blocks Start 0 ∅ Out = Done (Size', Out') →
  ∃ Vis,
    Out' = moreOutput Out (map DbgBlock (Start :: Vis)) []
    ∧ NoDup (Start :: Vis)
    ∧ lastLinked Blocks (Start :: Vis)
    ∧ Size' = wrap32 (sizeSum Blocks (Start :: Vis)).
Proof.
  intros Hrun.
  destruct (chainWalk_path fuel Blocks Start 0 ∅ Out Size' Out' ltac:(lia) Hrun)
    as (Vis & -> & -> & Hhead & Hlink & Hnd & _).
  destruct Vis as [|v Vis].
  - by apply not_elem_of_empty in Hhead.
  - destruct Hhead as [-> _]. exists Vis. rewrite Z.add_0_l. done.
Qed.

Lemma X10_walk_result_witness :
  ∃ Vis,
    moreOutput noOutput [DbgBlock 0; DbgBlock 1; DbgBlock 2] []
      = moreOutput noOutput (map DbgBlock (0%nat :: Vis)) []
    ∧ NoDup (0%nat :: Vis)
    ∧ lastLinked ifThenCFG (0%nat :: Vis)
    ∧ 15 = wrap32 (sizeSum ifThenCFG (0%nat :: Vis)).
Proof.
  apply (X10_walk_result 4 ifThenCFG 0 noOutput 15
           (moreOutput noOutput [DbgBlock 0; DbgBlock 1; DbgBlock 2] [])).
  vm_compute. reflexivity.
Defined.

(** ** The statements after the first return *)

Lemma singlePredFallthrough_total Blocks Idx MBB :
  edgesConsistent Blocks → Blocks !! Idx = Some MBB →
  ∃ b, singlePredFallthrough Blocks Idx MBB = Done b.
Proof.
  intros Hedges HB. unfold singlePredFallthrough.
  destruct (Nat.eqb (pred_size MBB) 1) eqn:Hp; [|by eexists].
  unfold pred_size in Hp. destruct (Predecessors MBB) as [|P Ps] eqn:HPs;
    [discriminate|].
  destruct (Hedges Idx MBB P HB) as (PB & HPB & Hin).
  { rewrite HPs. left. }
  unfold deref. rewrite HPB. cbn [mbind outcome_bind].
  unfold lastSucc. destruct (last (Successors PB)) as [N|] eqn:HN.
  - cbn [mbind outcome_bind]. by eexists.
  - apply last_None in HN. rewrite HN in Hin. by apply elem_of_nil in Hin.
Qed.

Lemma fetchGroupStep_total fuel Blocks Idx MBB acc :
  wfCFG Blocks → edgesConsistent Blocks → Blocks !! Idx = Some MBB →
  (length Blocks < fuel)%nat →
  ∃ r, fetchGroupStep fuel Blocks Idx MBB acc = Done r.
Proof.
  intros Hwf Hedges HB Hfuel. destruct acc as [[NumFGs Sizes] Out].
  unfold fetchGroupStep.
  destruct (singlePredFallthrough_total Blocks Idx MBB Hedges HB) as [b ->].
  cbn [mbind outcome_bind]. destruct b; [by eexists|].
  destruct (chainWalk_done fuel Blocks Idx 0 ∅ (dbg DbgStartFG Out) Hwf)
    as (Size' & Vis & -> & _).
  - by apply lookup_lt_Some in HB.
  - by intros x ?%not_elem_of_empty.
  - rewrite size_empty. lia.
  - cbn [mbind outcome_bind]. by eexists.
Qed.

Lemma fetchGroupLoop_total fuel Blocks (Rest : list MachineBasicBlock) :
  wfCFG Blocks → edgesConsistent Blocks → (length Blocks < fuel)%nat →
  ∀ Idx acc,
    (∀ k MBB, Rest !! k = Some MBB → Blocks !! (Idx + k)%nat = Some MBB) →
    ∃ r, fetchGroupLoop fuel Blocks Idx Rest acc = Done r.
Proof.
  intros Hwf Hedges Hfuel.
  induction Rest as [|MBB Rest IH]; intros Idx acc Hpos; [by eexists|].
  cbn [fetchGroupLoop].
  destruct (fetchGroupStep_total fuel Blocks Idx MBB acc Hwf Hedges) as [r ->];
    [|done|].
  { rewrite <- (Nat.add_0_r Idx). by apply Hpos. }
  cbn [mbind outcome_bind]. apply IH. intros k B Hk.
  replace (S Idx + k)%nat with (Idx + S k)%nat by lia. by apply Hpos.
Qed.

Lemma fetchGroupStep_mono fuel fuel' Blocks Idx MBB acc r :
  (fuel ≤ fuel')%nat →
  fetchGroupStep fuel Blocks Idx MBB acc = Done r →
  fetchGroupStep fuel' Blocks Idx MBB acc = Done r.
Proof.
  intros Hle. destruct acc as [[NumFGs Sizes] Out]. unfold fetchGroupStep.
  destruct (singlePredFallthrough Blocks Idx MBB) as [[|]| |];
    cbn [mbind outcome_bind]; try done.
  destruct (chainWalk fuel Blocks Idx 0 ∅ (dbg DbgStartFG Out))
    as [[Size W]| |] eqn:Hrun; cbn [mbind outcome_bind]; try done.
  by rewrite (chainWalk_mono fuel fuel' _ _ _ _ _ _ Hle Hrun).
Qed.

Lemma fetchGroupLoop_mono fuel fuel' Blocks (Rest : list MachineBasicBlock) :
  (fuel ≤ fuel')%nat →
  ∀ Idx acc r,
    fetchGroupLoop fuel Blocks Idx Rest acc = Done r →
    fetchGroupLoop fuel' Blocks Idx Rest acc = Done r.
Proof.
  intros Hle. induction Rest as [|MBB Rest IH]; intros Idx acc r; [done|].
  cbn [fetchGroupLoop].
  destruct (fetchGroupStep fuel Blocks Idx MBB acc) as [acc'| |] eqn:Hstep;
    cbn [mbind outcome_bind]; try done.
  rewrite (fetchGroupStep_mono fuel fuel' _ _ _ _ _ Hle Hstep).
  cbn [mbind outcome_bind]. apply IH.
Qed.


Lemma ifThenCFG_wf : wfCFG ifThenCFG.
Proof. unfold wfCFG, ifThenCFG. repeat constructor. Defined.

Lemma ifThenCFG_edges : edgesConsistent ifThenCFG.
Proof.
  intros i B P HB HP.
  destruct i as [|[|[|i]]]; cbn in HB; try discriminate;
    injection HB as <-; cbn in HP;
    repeat (apply elem_of_cons in HP as [-> | HP];
            [eexists; split; [reflexivity|]; cbn;
             solve [repeat ((by left) || right)]|]);
    by apply elem_of_nil in HP.
Defined.


Lemma sizeSum_empty (Blocks : list MachineBasicBlock) (Vis : list nat) :
  Forall (λ B, Insts B = []) Blocks → sizeSum Blocks Vis = 0.
Proof.
  intros Hall. induction Vis as [|v Vis IH]; [reflexivity|].
  cbn [sizeSum]. rewrite IH. destruct (Blocks !! v) as [B|] eqn:HB; [|done].
  rewrite Forall_forall in Hall.
  pose proof (Hall B (list_elem_of_lookup_2 _ _ _ HB)) as HI.
  unfold size, MachineBasicBlock_size. by rewrite HI.
Qed.

Lemma fetchGroupLoop_empty fuel Blocks (Rest : list MachineBasicBlock) :
  Forall (λ B, Insts B = []) Blocks →
  ∀ Idx Out NumFGs Sizes Out',
    fetchGroupLoop fuel Blocks Idx Rest (0, 0, Out) = Done (NumFGs, Sizes, Out') →
    NumFGs = 0 ∧ Sizes = 0.
Proof.
  intros Hall. induction Rest as [|MBB Rest IH]; intros Idx Out NumFGs Sizes Out'.
  { by intros [= <- <- _]. }
  cbn [fetchGroupLoop]. unfold fetchGroupStep at 1.
  destruct (singlePredFallthrough Blocks Idx MBB) as [[|]| |];
    cbn [mbind outcome_bind]; try done.
  - apply IH.
  - destruct (chainWalk fuel Blocks Idx 0 ∅ (dbg DbgStartFG Out))
      as [[Size W]| |] eqn:Hrun; cbn [mbind outcome_bind]; try done.
    assert (0 ≤ 0 < 2 ^ 32) as Hzero by lia.
    destruct (chainWalk_path _ _ _ _ _ _ _ _ Hzero Hrun) as (Vis & _ & -> & _).
    rewrite sizeSum_empty by done. apply IH.
Qed.



Lemma wrap32_add3 (a b c : Z) :
  wrap32 (wrap32 (wrap32 a + b) + c) = wrap32 (a + b + c).
Proof.
  rewrite wrap32_add_l, <- Z.add_assoc, wrap32_add_l. f_equal. lia.
Qed.

(** X13. An if-then of three blocks: the entry, whose last-listed successor
    is the then-block; the then-block, whose only predecessor is the entry
    and whose last-listed successor is the join block; and the join block,
    which has not exactly one predecessor and no successor. Two fetch groups
    are started, at the entry and at the join block; the first runs through
    all three blocks, so that the join block is walked twice and its
    instructions are added to Sizes twice. *)
Theorem X13_join_block_counted_twice (E A J : MachineBasicBlock) (fuel : nat)
    (NumFGs Sizes : Z) (Out : Streams) :
  pred_size E ≠ 1%nat →
  last (Successors E) = Some 1%nat →
  Predecessors A = [0%nat] →
  last (Successors A) = Some 2%nat →
  pred_size J ≠ 1%nat →
  Successors J = [] →
  (3 ≤ fuel)%nat →
  let Size1 := wrap32 (Z.of_nat (size E) + Z.of_nat (size A) + Z.of_nat (size J)) in
  let Size2 := wrap32 (Z.of_nat (size J)) in
  fetchGroupLoop fuel [E; A; J] 0 [E; A; J] (NumFGs, Sizes, Out)
    = Done (wrap32 (wrap32 (NumFGs + divideCeil Size1 16) + divideCeil Size2 16),
            wrap32 (wrap32 (Sizes + Size1) + Size2),
            moreOutput Out [ DbgStartFG; DbgBlock 0; DbgBlock 1; DbgBlock 2;
                             DbgSize Size1;
                             DbgStartFG; DbgBlock 2; DbgSize Size2 ] []).
Proof.
  intros HPE HSE HPA HSA HPJ HSJ Hfuel Size1 Size2.
  set (Blocks := [E; A; J]).
  destruct fuel as [|[|[|fuel]]]; try lia.
  assert (∀ Out0, chainWalk (S (S (S fuel))) Blocks 0 0 ∅ Out0
            = Done (Size1, moreOutput Out0 [DbgBlock 0; DbgBlock 1; DbgBlock 2] []))
    as Hwalk1.
  { intros Out0.
    rewrite (chainWalk_next _ Blocks 0 _ _ _ E 1) by seen_solver.
    rewrite (chainWalk_next _ Blocks 1 _ _ _ A 2) by seen_solver.
    rewrite (chainWalk_end _ Blocks 2 _ _ _ J) by seen_solver.
    rewrite wrap32_add3, Z.add_0_l, !dbg_more, !moreOutput_more. reflexivity. }
  assert (∀ Out0, chainWalk (S (S (S fuel))) Blocks 2 0 ∅ Out0
            = Done (Size2, moreOutput Out0 [DbgBlock 2] [])) as Hwalk2.
  { intros Out0.
    rewrite (chainWalk_end _ Blocks 2 _ _ _ J) by seen_solver.
    by rewrite Z.add_0_l, dbg_more. }
  unfold Blocks at 2. cbn [fetchGroupLoop].
  rewrite (fetchGroupStep_start _ Blocks 0 E NumFGs Sizes Out Size1 _
             (singlePredFallthrough_start _ _ _ HPE) (Hwalk1 _)).
  cbn [mbind outcome_bind].
  rewrite (fetchGroupStep_skip _ Blocks 1 A _
             (singlePredFallthrough_skip Blocks 1 A 0 E HPA eq_refl HSE)).
  cbn [mbind outcome_bind].
  rewrite (fetchGroupStep_start _ Blocks 2 J _ _ _ Size2 _
             (singlePredFallthrough_start _ _ _ HPJ) (Hwalk2 _)).
  cbn [mbind outcome_bind].
  rewrite !dbg_more, !moreOutput_more. reflexivity.
Qed.

Lemma X13_join_block_counted_twice_witness :
  fetchGroupLoop 3 ifThenCFG 0 ifThenCFG (0, 0, noOutput)
    = Done (2, 22,
            moreOutput noOutput [ DbgStartFG; DbgBlock 0; DbgBlock 1; DbgBlock 2;
                                  DbgSize 15;
                                  DbgStartFG; DbgBlock 2; DbgSize 7 ] []).
Proof.
  apply (X13_join_block_counted_twice
           (edgeBlock 3 [] [2%nat; 1%nat]) (edgeBlock 5 [0%nat] [2%nat])
           (edgeBlock 7 [0%nat; 1%nat] []) 3 0 0 noOutput);
    solve [reflexivity | discriminate | lia].
Defined.

(** A finished walk has visited, with each block, the block its last-listed
    successor names, unless that one was seen before the walk began. *)
Lemma chainWalk_closed fuel :
  ∀ Blocks Curr Size (Seen : gset nat) Out Size' Out',
    chainWalk fuel Blocks Curr Size Seen Out = Done (Size', Out') →
    ∃ Vis,
      Out' = moreOutput Out (map DbgBlock Vis) []
      ∧ (Curr ∉ Seen → Curr ∈ Vis)
      ∧ (∀ v B N, v ∈ Vis → Blocks !! v = Some B →
           last (Successors B) = Some N → N ∈ Vis ∨ N ∈ Seen).
Proof.
  induction fuel as [|fuel IH];
    intros Blocks Curr Size Seen Out Size' Out'; [discriminate|].
  cbn [chainWalk]. destruct (decide (Curr ∈ Seen)) as [Hin|Hnin].
  { intros [= <- <-]. exists []. rewrite moreOutput_nil.
    split; [done|]. split; [done|]. by intros v B N ?%elem_of_nil. }
  destruct (deref Blocks Curr) as [B| |] eqn:HB; cbn [mbind outcome_bind];
    try done.
  apply deref_Done in HB.
  destruct (Nat.eqb (succ_size B) 0) eqn:Hsucc.
  { intros [= <- <-]. exists [Curr]. rewrite dbg_more.
    split; [done|]. split; [intros _; left|].
    intros v B' N ->%list_elem_of_singleton HB' HN. exfalso.
    rewrite HB in HB'. injection HB' as <-.
    apply Nat.eqb_eq in Hsucc. unfold succ_size in Hsucc.
    destruct (Successors B); [discriminate HN | discriminate Hsucc]. }
  destruct (lastSucc B) as [N0| |] eqn:HN0; cbn [mbind outcome_bind]; try done.
  apply lastSucc_Done in HN0. intros Hrun.
  destruct (IH _ _ _ _ _ _ _ Hrun) as (Vis & -> & Hstart & Hclosed).
  exists (Curr :: Vis). rewrite dbg_more, moreOutput_more.
  split; [done|]. split; [intros _; left|].
  intros v B' N [-> | Hv]%elem_of_cons HB' HN.
  - rewrite HB in HB'. injection HB' as <-.
    rewrite HN0 in HN. injection HN as <-.
    destruct (decide (N0 ∈ {[Curr]} ∪ Seen)) as [Hseen|Hnew].
    + apply elem_of_union in Hseen as [->%elem_of_singleton | Hseen];
        [left; left | by right].
    + left. right. by apply Hstart.
  - destruct (Hclosed v B' N Hv HB' HN) as [HN' | HN']; [left; by right|].
    apply elem_of_union in HN' as [->%elem_of_singleton | HN'];
      [left; left | by right].
Qed.

Lemma DbgBlock_elem_of_map (P : nat) (Vis : list nat) :
  DbgBlock P ∈ map DbgBlock Vis ↔ P ∈ Vis.
Proof.
  rewrite !list_elem_of_In, in_map_iff. split.
  - by intros (v & [= ->] & Hv).
  - intros HP. by exists P.
Qed.

Lemma walkedClosed_app Blocks ds1 ds2 :
  walkedClosed Blocks ds1 → walkedClosed Blocks ds2 →
  walkedClosed Blocks (ds1 ++ ds2).
Proof.
  intros H1 H2 P PB N [HP | HP]%elem_of_app HPB HN; apply elem_of_app.
  - left. by apply (H1 P PB N).
  - right. by apply (H2 P PB N).
Qed.

Lemma fetchGroupStep_walked fuel Blocks Idx MBB NumFGs Sizes Out NumFGs' Sizes' Out' :
  fetchGroupStep fuel Blocks Idx MBB (NumFGs, Sizes, Out)
    = Done (NumFGs', Sizes', Out') →
  ∃ ds, dbgs Out' = dbgs Out ++ ds
    ∧ walkedClosed Blocks ds
    ∧ (singlePredFallthrough Blocks Idx MBB = Done false → DbgBlock Idx ∈ ds).
Proof.
  unfold fetchGroupStep.
  destruct (singlePredFallthrough Blocks Idx MBB) as [[|]| |];
    cbn [mbind outcome_bind]; try done.
  - intros [= _ _ <-]. exists []. rewrite app_nil_r.
    split; [done|]. split; [|done]. by intros P PB N ?%elem_of_nil.
  - destruct (chainWalk fuel Blocks Idx 0 ∅ (dbg DbgStartFG Out))
      as [[Size W]| |] eqn:Hrun; cbn [mbind outcome_bind]; try done.
    intros [= _ _ <-].
    destruct (chainWalk_closed _ _ _ _ _ _ _ _ Hrun) as (Vis & -> & Hstart & Hcl).
    exists (DbgStartFG :: map DbgBlock Vis ++ [DbgSize Size]).
    split; [|split].
    + cbn [dbg moreOutput dbgs]. by rewrite <- !app_assoc.
    + intros P PB N HP HPB HN. right. apply elem_of_app. left.
      apply DbgBlock_elem_of_map.
      apply elem_of_cons in HP as [[=] | HP].
      apply elem_of_app in HP as [HP%DbgBlock_elem_of_map | HP].
      * destruct (Hcl P PB N HP HPB HN) as [HN' | HN']; [done|].
        by apply not_elem_of_empty in HN'.
      * by apply list_elem_of_singleton in HP.
    + intros _. right. apply elem_of_app. left. apply DbgBlock_elem_of_map.
      apply Hstart, not_elem_of_empty.
Qed.

Lemma fetchGroupLoop_walked fuel Blocks (Rest : list MachineBasicBlock) :
  ∀ Idx NumFGs Sizes Out NumFGs' Sizes' Out',
    fetchGroupLoop fuel Blocks Idx Rest (NumFGs, Sizes, Out)
      = Done (NumFGs', Sizes', Out') →
    ∃ ds, dbgs Out' = dbgs Out ++ ds
      ∧ walkedClosed Blocks ds
      ∧ (∀ k MBB, Rest !! k = Some MBB →
           singlePredFallthrough Blocks (Idx + k) MBB = Done false →
           DbgBlock (Idx + k)%nat ∈ ds).
Proof.
  induction Rest as [|MBB Rest IH]; intros Idx NumFGs Sizes Out NumFGs' Sizes' Out'.
  { intros [= _ _ <-]. exists []. rewrite app_nil_r.
    split; [done|]. split; [by intros P PB N ?%elem_of_nil | done]. }
  cbn [fetchGroupLoop].
  destruct (fetchGroupStep fuel Blocks Idx MBB (NumFGs, Sizes, Out))
    as [[[N1 S1] O1]| |] eqn:Hstep; cbn [mbind outcome_bind]; try done.
  intros Hrest.
  destruct (fetchGroupStep_walked _ _ _ _ _ _ _ _ _ _ Hstep)
    as (ds1 & Hds1 & Hcl1 & Hstart1).
  destruct (IH _ _ _ _ _ _ _ Hrest) as (ds2 & Hds2 & Hcl2 & Hstart2).
  exists (ds1 ++ ds2). split; [by rewrite Hds2, Hds1, app_assoc|].
  split; [by apply walkedClosed_app|].
  intros [|k] B Hk Hs; apply elem_of_app.
  - left. injection Hk as <-. rewrite Nat.add_0_r in *. by apply Hstart1.
  - right. replace (Idx + S k)%nat with (S Idx + k)%nat in * by lia.
    by apply (Hstart2 k B).
Qed.

(** X14. When the loop over the blocks has finished, every block that
    started a fetch group has been walked, and with every walked block the
    block its last-listed successor names (in the same walk). Hence a block
    is left out of all fetch groups only if it does not start one and its
    single predecessor is left out too. *)
Theorem X14_walked_blocks (fuel : nat) (Blocks : list MachineBasicBlock)
    (NumFGs Sizes : Z) (Out : Streams) (NumFGs' Sizes' : Z) (Out' : Streams) :
  fetchGroupLoop fuel Blocks 0 Blocks (NumFGs, Sizes, Out)
    = Done (NumFGs', Sizes', Out') →
  ∃ ds, dbgs Out' = dbgs Out ++ ds
    ∧ (∀ i B, Blocks !! i = Some B →
         singlePredFallthrough Blocks i B = Done false → DbgBlock i ∈ ds)
    ∧ (∀ P PB N, DbgBlock P ∈ ds → Blocks !! P = Some PB →
         last (Successors PB) = Some N → DbgBlock N ∈ ds)
    ∧ (∀ i B P, Blocks !! i = Some B → DbgBlock i ∉ ds →
         singlePredFallthrough Blocks i B = Done true
         → Predecessors B = [P] → DbgBlock P ∉ ds).
Proof.
  intros Hrun.
  destruct (fetchGroupLoop_walked _ _ _ _ _ _ _ _ _ _ Hrun)
    as (ds & Hds & Hcl & Hstart).
  exists ds. split; [done|]. split; [exact Hstart|]. split; [exact Hcl|].
  intros i B P HB Hout Hskip HP HPin. apply Hout.
  unfold singlePredFallthrough, pred_size in Hskip. rewrite HP in Hskip.
  cbn [length Nat.eqb] in Hskip.
  destruct (deref Blocks P) as [PB| |] eqn:HPB; cbn [mbind outcome_bind] in Hskip;
    try done.
  apply deref_Done in HPB.
  destruct (lastSucc PB) as [N| |] eqn:HN; cbn [mbind outcome_bind] in Hskip;
    try done.
  apply lastSucc_Done in HN. injection Hskip as Heq.
  apply Nat.eqb_eq in Heq as ->. by apply (Hcl P PB i).
Qed.

Lemma X14_walked_blocks_witness :
  ∃ ds,
    dbgs (moreOutput noOutput [ DbgStartFG; DbgBlock 0; DbgBlock 1; DbgBlock 2;
                                DbgSize 15;
                                DbgStartFG; DbgBlock 2; DbgSize 7 ] [])
      = dbgs noOutput ++ ds
    ∧ (∀ i B, ifThenCFG !! i = Some B →
         singlePredFallthrough ifThenCFG i B = Done false → DbgBlock i ∈ ds)
    ∧ (∀ P PB N, DbgBlock P ∈ ds → ifThenCFG !! P = Some PB →
         last (Successors PB) = Some N → DbgBlock N ∈ ds)
    ∧ (∀ i B P, ifThenCFG !! i = Some B → DbgBlock i ∉ ds →
         singlePredFallthrough ifThenCFG i B = Done true
         → Predecessors B = [P] → DbgBlock P ∉ ds).
Proof.
  apply (X14_walked_blocks 3 ifThenCFG 0 0 noOutput 2 22).
  vm_compute. reflexivity.
Defined.

Lemma sizeSum_nonneg Blocks Vis : 0 ≤ sizeSum Blocks Vis.
Proof.
  induction Vis as [|v Vis IH]; cbn [sizeSum]; [done|].
  destruct (Blocks !! v); lia.
Qed.

Lemma sizeSum_app Blocks Vis1 Vis2 :
  sizeSum Blocks (Vis1 ++ Vis2) = sizeSum Blocks Vis1 + sizeSum Blocks Vis2.
Proof.
  induction Vis1 as [|v Vis1 IH]; cbn [sizeSum app]; [done|]. rewrite IH. lia.
Qed.

Lemma sizeSum_submseteq Blocks (Vis1 Vis2 : list nat) :
  Vis1 ⊆+ Vis2 → sizeSum Blocks Vis1 ≤ sizeSum Blocks Vis2.
Proof.
  induction 1 as [|x l1 l2 _ IH|x y l|x l1 l2 _ IH|l1 l2 l3 _ IH1 _ IH2];
    cbn [sizeSum]; try lia.
  destruct (Blocks !! x); lia.
Qed.

Lemma sizeSum_shift B Blocks (Vis : list nat) :
  sizeSum (B :: Blocks) (map S Vis) = sizeSum Blocks Vis.
Proof.
  induction Vis as [|v Vis IH]; cbn [sizeSum map]; [done|]. by rewrite IH.
Qed.

Lemma sizeSum_all Blocks :
  sizeSum Blocks (seq 0 (length Blocks)) = totalSize Blocks.
Proof.
  induction Blocks as [|B Blocks IH]; [reflexivity|].
  cbn [length seq sizeSum totalSize foldr]. rewrite <- seq_shift, sizeSum_shift.
  cbn. by rewrite IH.
Qed.

Lemma sizeSum_valid Blocks (Vis : list nat) :
  sizeSum Blocks Vis
  = sizeSum Blocks (List.filter (λ v, Nat.ltb v (length Blocks)) Vis).
Proof.
  induction Vis as [|v Vis IH]; [reflexivity|]. cbn [sizeSum List.filter].
  destruct (Nat.ltb_spec v (length Blocks)) as [Hlt|Hge]; cbn [sizeSum].
  - by rewrite IH.
  - rewrite (lookup_ge_None_2 Blocks v) by lia. by rewrite IH.
Qed.

Lemma sizeSum_le_total Blocks (Vis : list nat) :
  NoDup Vis → sizeSum Blocks Vis ≤ totalSize Blocks.
Proof.
  intros Hnd. rewrite sizeSum_valid, <- sizeSum_all.
  apply sizeSum_submseteq, NoDup_submseteq.
  - apply NoDup_ListNoDup, List.NoDup_filter, NoDup_ListNoDup, Hnd.
  - intros v [_ Hv%Nat.ltb_lt]%list_elem_of_In%filter_In.
    apply list_elem_of_In, in_seq. lia.
Qed.

(** X15. A fetch group never counts a block twice: when the instruction
    count of the function is below 2^32, the Size of a finished walk is at
    most that count, whatever cycles the walk runs into. *)
Theorem X15_group_size_bound (fuel : nat) (Blocks : list MachineBasicBlock)
    (Start : nat) (Out : Streams) (Size' : Z) (Out' : Streams) :
  totalSize Blocks < 2 ^ 32 →
  chainWalk fuel Blocks Start 0 ∅ Out = Done (Size', Out') →
  0 ≤ Size' ≤ totalSize Blocks.
Proof.
  intros Htotal Hrun.
  assert (0 ≤ 0 < 2 ^ 32) as Hzero by lia.
  destruct (chainWalk_path fuel Blocks Start 0 ∅ Out Size' Out' Hzero Hrun)
    as (Vis & _ & -> & _ & _ & Hnd & _).
  pose proof (sizeSum_nonneg Blocks Vis).
  pose proof (sizeSum_le_total Blocks Vis Hnd).
  rewrite Z.add_0_l, wrap32_small; lia.
Qed.

Lemma X15_group_size_bound_witness : 0 ≤ 3 ≤ totalSize selfLoopCFG.
Proof.
  apply (X15_group_size_bound 4 selfLoopCFG 1 noOutput 3
           (moreOutput noOutput [DbgBlock 1] [])).
  - vm_compute. reflexivity.
  - vm_compute. reflexivity.
Defined.
